(** * couchtypes/utils.js: getPropertyPath, getErrors, parseCSV and
    attachmentsBelowPath

    A shallow embedding of the four functions of [utils.js], the
    properties of them that the specification states, and further
    properties that the code shows.

    JavaScript strings are sequences of UTF-16 code units; they are
    modelled as lists of code units, a code unit being a number. The
    built-ins the source calls ([charAt], [substring], [indexOf], [trim],
    [replace] of doubled quotes, [RegExp.prototype.exec] on the two
    patterns of [parseCSV], [Array.prototype.concat], the operator or)
    are modelled after ECMAScript, each next to the place that uses it.

    In the comments below Q stands for the double-quote character, D for
    one of comma, carriage return and line feed, and SP for a space. *)

From Stdlib Require Import NArith ZArith Lia.
From Stdlib Require Import Strings.Ascii Strings.String.
From Stdlib Require Import Floats.SpecFloat.
From stdpp Require Import base option list gmap.

Set Default Proof Using "Type".

(** * Part I: the code *)

(** ** JavaScript strings *)

Definition char := N.
Abbreviation jsstring := (list char).

(** An ASCII literal of the source as a string of code units. *)
Definition lit (s : String.string) : jsstring :=
  map N_of_ascii (list_ascii_of_string s).

(** The same, an apostrophe standing for the double-quote character. *)
Definition litq (s : String.string) : jsstring :=
  map (λ c, if (c =? 39)%N then 34%N else c) (lit s).

Definition QUOTE : char := 34%N.
Definition COMMA : char := 44%N.
Definition CR : char := 13%N.
Definition LF : char := 10%N.
Definition SPACE : char := 32%N.

(** [s.charAt(i)]: the one-unit string at [i], the empty string out of
    range. *)
Definition charAt (s : jsstring) (i : nat) : jsstring :=
  match s !! i with
  | Some c => [c]
  | None => []
  end.

(** [s.substring(a, b)]: both arguments are clamped to [0 .. s.length]
    and swapped when [a > b]. Indices are natural numbers here; a
    negative argument is clamped to 0 by JavaScript and by truncated
    subtraction alike. *)
Definition substring (s : jsstring) (a b : nat) : jsstring :=
  let a' := a `min` length s in
  let b' := b `min` length s in
  let from := a' `min` b' in
  let to := a' `max` b' in
  take (to - from) (drop from s).

(** [s.substring(a)]. *)
Definition substring_from (s : jsstring) (a : nat) : jsstring :=
  substring s a (length s).

(** [s.indexOf(c)] for a one-unit string [c]: the first index, or -1. *)
Fixpoint indexOf (s : jsstring) (c : char) : Z :=
  match s with
  | [] => (-1)%Z
  | x :: s' =>
      if (x =? c)%N then 0%Z
      else let r := indexOf s' c in
           if (r <? 0)%Z then (-1)%Z else (r + 1)%Z
  end.

(** [WhiteSpace] and [LineTerminator] of ECMAScript, the code units that
    [trim] removes. *)
Definition is_ws (c : char) : bool :=
  existsb (N.eqb c)
    [9; 10; 11; 12; 13; 32; 160; 5760; 8232; 8233; 8239; 8287; 12288; 65279]%N
  || ((8192 <=? c)%N && (c <=? 8202)%N).

Fixpoint trimStart (s : jsstring) : jsstring :=
  match s with
  | c :: s' => if is_ws c then trimStart s' else s
  | [] => []
  end.

(** [s.trim()]. *)
Definition trim (s : jsstring) : jsstring :=
  rev (trimStart (rev (trimStart s))).

(** [s.replace(/QQ/g, Q)]: the matches are taken left to right and do
    not overlap. *)
Fixpoint replace_dq (s : jsstring) : jsstring :=
  match s with
  | c1 :: ((c2 :: r) as t) =>
      if (c1 =? QUOTE)%N && (c2 =? QUOTE)%N then QUOTE :: replace_dq r
      else c1 :: replace_dq t
  | _ => s
  end.

Definition SLASH : char := 47%N.

(** [s.substr(start, length)] and [s.substr(start)], for arguments that
    are not negative. *)
Definition substr (s : jsstring) (start len : nat) : jsstring :=
  take len (drop start s).

Definition substr_from (s : jsstring) (start : nat) : jsstring :=
  drop start s.

(** [l.join(sep)] *)
Fixpoint join_sep (sep : jsstring) (l : list jsstring) : jsstring :=
  match l with
  | [] => []
  | x :: l' =>
      match l' with
      | [] => x
      | _ :: _ => x ++ sep ++ join_sep sep l'
      end
  end.

(** ** The two patterns of [parseCSV] and [exec]

    A pattern is modelled by its matcher anchored at the head of a
    suffix of the subject; the result is the matched text and the
    captures, an unset capture being [None] ([undefined]). *)

Record rmatch := { m0 : jsstring; groups : list (option jsstring) }.

Definition is_delim (c : char) : bool :=
  (c =? COMMA)%N || (c =? CR)%N || (c =? LF)%N.

(** [SP*]: greedy, and nothing follows it in either pattern. *)
Fixpoint spaces (l : jsstring) : jsstring :=
  match l with
  | c :: l' => if (c =? SPACE)%N then c :: spaces l' else []
  | [] => []
  end.

(** [D SP*], the character class being [[,\015\012]]. *)
Definition delim_spaces (l : jsstring) : option jsstring :=
  match l with
  | c :: l' => if is_delim c then Some (c :: spaces l') else None
  | [] => None
  end.

(** The pattern [fieldEndMarker]: [D SP*], captured. *)
Definition fieldEndMarker (l : jsstring) : option rmatch :=
  g ← delim_spaces l;
  Some {| m0 := g; groups := [Some g] |}.

(** [Q] then [D SP*] captured: what follows the starred group in
    [qFieldEndMarker]; the first capture is left unset. *)
Definition q_close (l : jsstring) : option rmatch :=
  match l with
  | c :: l' =>
      if (c =? QUOTE)%N then
        g ← delim_spaces l';
        Some {| m0 := c :: g; groups := [None; Some g] |}
      else None
  | [] => None
  end.

(** The pattern [qFieldEndMarker]: any number of captured pairs [QQ],
    then [Q], then [D SP*] captured. The star is greedy, so one more
    pair of quotes is tried first, and the engine backtracks to no
    further pair when the rest does not match after it. *)
Fixpoint qFieldEndMarker (l : jsstring) : option rmatch :=
  match l with
  | c1 :: c2 :: l' =>
      if (c1 =? QUOTE)%N && (c2 =? QUOTE)%N then
        match qFieldEndMarker l' with
        | Some m =>
            Some {| m0 := c1 :: c2 :: m0 m;
                    groups := Some [c1; c2] :: tail (groups m) |}
        | None => q_close l
        end
      else q_close l
  | _ => q_close l
  end.

(** The leftmost match at or after position [i], [l] being the subject
    from [i] on. *)
Fixpoint search (re : jsstring → option rmatch) (l : jsstring) (i : nat)
  : option (nat * rmatch) :=
  match re l with
  | Some m => Some (i, m)
  | None =>
      match l with
      | [] => None
      | _ :: l' => search re l' (S i)
      end
  end.

Definition match_array := list (option jsstring).

(** [re.lastIndex = lastIndex; re.exec(s)] for a global pattern: the
    match array and the new [lastIndex], or [None] for [null]. *)
Definition exec (re : jsstring → option rmatch) (s : jsstring)
    (lastIndex : nat) : option (match_array * nat) :=
  if decide (length s < lastIndex) then None
  else
    '(i, m) ← search re (drop lastIndex s) lastIndex;
    Some (Some (m0 m) :: groups m, i + length (m0 m)).

(** ** Outcomes of [parseCSV]

    Reading [.length] of [undefined] raises a [TypeError]; the loop is
    run on fuel. *)

Inductive res (A : Type) : Type :=
| Ok (a : A)
| TypeError
| OutOfFuel.
Arguments Ok {A} a.
Arguments TypeError {A}.
Arguments OutOfFuel {A}.

#[global] Instance res_ret : MRet res := λ A a, Ok a.
#[global] Instance res_bind : MBind res := λ A B f m,
  match m with
  | Ok a => f a
  | TypeError => TypeError
  | OutOfFuel => OutOfFuel
  end.

(** [a[i]] of a match array, to be used as a string. *)
Definition str_at (a : match_array) (i : nat) : res jsstring :=
  match a !! i with
  | Some (Some s) => Ok s
  | _ => TypeError
  end.

(** ** parseCSV *)

Record state := {
  startIndex : nat;
  records : list (list jsstring);
  currentRecord : list jsstring
}.

Definition init : state :=
  {| startIndex := 0; records := []; currentRecord := [] |}.

(** One pass through the body of the [do ... while (true)] loop:
    [None] is [break]. *)
Definition body (csvString : jsstring) (st : state) : res (option state) :=
  let ch := charAt csvString (startIndex st) in
  let endMarkerRE :=
    if decide (ch = [QUOTE]) then qFieldEndMarker else fieldEndMarker in
  match exec endMarkerRE csvString (startIndex st) with
  | None => Ok None
  | Some (matchArray, lastIndex) =>
      if decide (length matchArray = 0) then Ok None
      else
        g ← str_at matchArray (length matchArray - 1);
        let endIndex := lastIndex - length g in
        let match_ := substring csvString (startIndex st) endIndex in
        let match_ :=
          if decide (charAt match_ 0 = [QUOTE])
          then replace_dq (substring match_ 1 (length match_ - 1))
          else match_ in
        let currentRecord := currentRecord st ++ [match_] in
        marker ← str_at matchArray 0;
        Ok (Some
          (if (indexOf marker COMMA <? 0)%Z
           then {| startIndex := lastIndex;
                   records := records st ++ [currentRecord];
                   currentRecord := [] |}
           else {| startIndex := lastIndex;
                   records := records st;
                   currentRecord := currentRecord |}))
  end.

(** The loop, on fuel: each pass takes one unit. *)
Fixpoint loop (fuel : nat) (csvString : jsstring) (st : state) : res state :=
  match fuel with
  | 0 => OutOfFuel
  | S fuel' =>
      o ← body csvString st;
      match o with
      | None => Ok st
      | Some st' => loop fuel' csvString st'
      end
  end.

(** What follows the loop. *)
Definition finish (csvString : jsstring) (st : state) : list (list jsstring) :=
  let currentRecord :=
    if decide (startIndex st < length csvString) then
      let remaining := trim (substring_from csvString (startIndex st)) in
      if decide (remaining = []) then currentRecord st
      else currentRecord st ++ [remaining]
    else currentRecord st in
  if decide (0 < length currentRecord) then records st ++ [currentRecord]
  else records st.

(** The loop is given one unit of fuel more than the input has code
    units: [parseCSV_terminates] shows that this is never used up and
    that any larger amount gives the same result. *)
Definition parseCSV (csvString : jsstring) : res (list (list jsstring)) :=
  st ← loop (S (length csvString)) csvString init;
  Ok (finish csvString st).

(** ** JavaScript values

    The values that a document holds, as a tagged union. Numbers are
    IEEE 754 doubles. An object is the finite map of its own
    properties; what a value inherits from its prototype is not
    modelled. *)

#[warnings="-register-all"]
Inductive value : Type :=
| VUndefined
| VNull
| VBool (b : bool)
| VNum (x : spec_float)
| VStr (s : jsstring)
| VArr (elems : list value)
| VObj (props : gmap jsstring value).

(** [ToBoolean]: the falsy values are [undefined], [null], [false],
    [+0], [-0], [NaN] and the empty string. *)
Definition truthy (v : value) : bool :=
  match v with
  | VUndefined | VNull => false
  | VBool b => b
  | VNum (S754_zero _) | VNum S754_nan => false
  | VNum _ => true
  | VStr [] => false
  | VStr _ => true
  | VArr _ | VObj _ => true
  end.

(** [a || b] *)
Definition js_or (a b : value) : value := if truthy a then a else b.

(** [arr.concat(x)]: the elements of an array [x] are appended, any
    other [x] is appended as one element. *)
Definition array_concat (arr : list value) (x : value) : list value :=
  match x with
  | VArr l => arr ++ l
  | _ => arr ++ [x]
  end.

(** The outcome of a call: a value returned or a value thrown. *)
Inductive completion (A : Type) : Type :=
| Return (a : A)
| Raise (e : value).
Arguments Return {A} a.
Arguments Raise {A} e.

#[global] Instance completion_ret : MRet completion := λ A a, Return a.
#[global] Instance completion_bind : MBind completion := λ A B f m,
  match m with
  | Return a => f a
  | Raise e => Raise e
  end.

(** [try { m } catch (e) { h e }] *)
Definition try_catch {A} (m : completion A) (h : value → completion A)
  : completion A :=
  match m with
  | Return a => Return a
  | Raise e => h e
  end.

(** ** getErrors *)

(** [fn] is the function called, given by the outcome of
    [fn.apply(this, args)]. When the call raises, the assignment to
    [arr] has not taken place, so [e] is pushed on the empty array. *)
Definition getErrors (fn : list value → completion value)
    (args : list value) : completion (list value) :=
  let arr := [] in
  try_catch
    (r ← fn args;
     Return (array_concat arr (js_or r (VArr []))))
    (λ e, Return (arr ++ [e])).

(** ** getPropertyPath *)

(** The number [n] as a double. *)
Definition num_of_nat (n : nat) : spec_float :=
  binary_normalize 53 1024 (Z.of_nat n) 0 false.

(** The array index that a property name spells, if any: decimal
    digits with no leading zero. *)
Fixpoint digits_val (acc : nat) (k : jsstring) : option nat :=
  match k with
  | [] => Some acc
  | c :: k' =>
      if (48 <=? c)%N && (c <=? 57)%N
      then digits_val (10 * acc + N.to_nat (c - 48)) k'
      else None
  end.

Definition array_index (k : jsstring) : option nat :=
  match k with
  | [] => None
  | [c] => digits_val 0 [c]
  | c :: _ => if (c =? 48)%N then None else digits_val 0 k
  end.

(** [obj[k]] for a property name [k]: own properties only. A name that
    [obj] does not have as an own property reads as [undefined], which
    is what a host gives when no prototype of [obj] has a property of
    that name. Reading a property of [undefined] or [null] raises a
    [TypeError]. *)
Definition get (obj : value) (k : jsstring) : res value :=
  match obj with
  | VUndefined | VNull => TypeError
  | VBool _ | VNum _ => Ok VUndefined
  | VStr s =>
      if decide (k = lit "length") then Ok (VNum (num_of_nat (length s)))
      else Ok (default VUndefined
                 (i ← array_index k; c ← s !! i; Some (VStr [c])))
  | VArr l =>
      if decide (k = lit "length") then Ok (VNum (num_of_nat (length l)))
      else Ok (default VUndefined (i ← array_index k; l !! i))
  | VObj m => Ok (default VUndefined (m !! k))
  end.

(** The [path] argument: an array of property names, one name, or
    [undefined] or [null] (an argument left out is [undefined]). A path
    that is any other value (a number, a boolean, an object) is not
    modelled. *)
Inductive path_arg : Type :=
| PArray (ks : list jsstring)
| PString (k : jsstring)
| PUndefined
| PNull.

(** The function on an array [path]; [path.slice(1)] is an array again,
    so the test of line 35 only matters on entry. *)
Fixpoint getPropertyPath_array (obj : value) (path : list jsstring)
  : res value :=
  match path with
  | [] => Ok obj
  | k :: path' =>
      if negb (truthy obj) then Ok obj
      else v ← get obj k; getPropertyPath_array v path'
  end.

(** A [path] that is no array becomes the array of it alone (line 36);
    used as a key, [undefined] names the property undefined and [null]
    the property null. *)
Definition getPropertyPath (obj : value) (path : path_arg) : res value :=
  let path :=
    match path with
    | PArray ks => ks
    | PString k => [k]
    | PUndefined => [lit "undefined"]
    | PNull => [lit "null"]
    end in
  getPropertyPath_array obj path.

(** The same function over the values of any host: [to_boolean] is
    [ToBoolean], and [read obj k] is [obj[k]] as the host evaluates it,
    with the prototype chain and the accessors that it may run; it is
    [None] when the read raises, as every read on [undefined] or [null]
    does. [getPropertyPath_array] is this function at the values above,
    read by [get] (lemma [getPropertyPath_with_get]). *)
Section AnyHost.

Context {V : Type}.
Variable to_boolean : V → bool.
Variable read : V → jsstring → option V.

Fixpoint getPropertyPath_with (obj : V) (path : list jsstring) : option V :=
  match path with
  | [] => Some obj
  | k :: path' =>
      if negb (to_boolean obj) then Some obj
      else v ← read obj k; getPropertyPath_with v path'
  end.

End AnyHost.

(** ** attachmentsBelowPath *)

(** The decimal digits of a number, as [String(i)] gives them for an
    array index [i]. *)
Fixpoint uint_codes (u : Decimal.uint) : jsstring :=
  match u with
  | Decimal.Nil => []
  | Decimal.D0 u => 48%N :: uint_codes u
  | Decimal.D1 u => 49%N :: uint_codes u
  | Decimal.D2 u => 50%N :: uint_codes u
  | Decimal.D3 u => 51%N :: uint_codes u
  | Decimal.D4 u => 52%N :: uint_codes u
  | Decimal.D5 u => 53%N :: uint_codes u
  | Decimal.D6 u => 54%N :: uint_codes u
  | Decimal.D7 u => 55%N :: uint_codes u
  | Decimal.D8 u => 56%N :: uint_codes u
  | Decimal.D9 u => 57%N :: uint_codes u
  end.

Definition index_key (i : nat) : jsstring := uint_codes (Nat.to_uint i).

(** What [for (var k in obj)] goes through, each name with [obj[k]]:
    the own properties of an object, the indices of an array or of a
    string, nothing for the other values. The order in which an object
    is gone through is not modelled; it is shown below not to matter for
    the loop of [attachmentsBelowPath]. *)
Definition own_entries (obj : value) : list (jsstring * value) :=
  match obj with
  | VObj m => map_to_list m
  | VArr l => imap (λ i v, (index_key i, v)) l
  | VStr s => imap (λ i c, (index_key i, VStr [c])) s
  | _ => []
  end.

(** The name whose assignment sets the prototype of an object. *)
Definition PROTO : jsstring := lit "__proto__".

(** An object that the code builds: its own properties and its
    prototype, [None] standing for [Object.prototype], which the object
    literal gives it, and [Some VNull] for no prototype. *)
Record object := { own : gmap jsstring value; proto : option value }.

(** The object literal with no property. *)
Definition empty_object : object := {| own := ∅; proto := None |}.

(** The values that the setter of [__proto__] takes as a prototype: an
    object (an array is one) or [null]. It ignores any other value. *)
Definition is_object_or_null (v : value) : bool :=
  match v with
  | VObj _ | VArr _ | VNull => true
  | _ => false
  end.

(** Whether an assignment to the name [__proto__] of [o] reaches the
    setter that [Object.prototype] has for this name (Annex B of
    ECMAScript). It does unless [o] has an own property of this name, or
    its prototype is an object of a document that has one, or it has no
    prototype. *)
Definition proto_setter_reached (o : object) : bool :=
  match own o !! PROTO with
  | Some _ => false
  | None =>
      match proto o with
      | None => true
      | Some (VObj m) => bool_decide (m !! PROTO = None)
      | Some (VArr _) => true
      | Some _ => false
      end
  end.

(** [o[k] = v]. Whatever else [o] can inherit here is a writable data
    property, so the assignment makes or changes an own property of
    [o], unless it reaches the setter of [__proto__]: the setter makes
    [v] the prototype of [o] when [v] is an object or [null], does
    nothing otherwise, and makes no property. *)
Definition assign (o : object) (k : jsstring) (v : value) : object :=
  if bool_decide (k = PROTO) && proto_setter_reached o
  then if is_object_or_null v then {| own := own o; proto := Some v |} else o
  else {| own := <[k := v]> (own o); proto := proto o |}.

(** The body of the loop of lines 148 to 152, [path] being a string. *)
Definition below_step (path : jsstring) (results : object)
    (kv : jsstring * value) : object :=
  let '(k, v) := kv in
  if decide (substr k 0 (length path + 1) = path ++ [SLASH])
  then assign results (substr_from k (length path + 1)) v
  else results.

(** The loop on the entries [es], from the empty [results]. *)
Definition below_entries (path : jsstring) (es : list (jsstring * value))
  : object :=
  foldl (below_step path) empty_object es.

(** The path after lines 144 to 146, when it is a string:
    [path.join('/')] of an array. [undefined] and [null] are left as
    they are ([None]). *)
Definition path_string (path : path_arg) : option jsstring :=
  match path with
  | PArray ks => Some (join_sep [SLASH] ks)
  | PString k => Some k
  | PUndefined | PNull => None
  end.

(** When the path is [undefined] or [null], [path.length] raises a
    [TypeError] on the first pass of the loop, if there is one. *)
Definition attachmentsBelowPath (doc : value) (path : path_arg)
  : res object :=
  if negb (truthy doc) then Ok empty_object
  else
    attachments ← get doc (lit "_attachments");
    if negb (truthy attachments) then Ok empty_object
    else
      match path_string path with
      | Some path => Ok (below_entries path (own_entries attachments))
      | None =>
          match own_entries attachments with
          | [] => Ok empty_object
          | _ :: _ => TypeError
          end
      end.

(** * Part II: the notions the properties are stated with *)

(** ** Where a field ends

    [end_at s i e]: scanning from the cursor [i], the field ends at [e],
    the position of its delimiter. A field that starts with a quote ends
    at the first delimiter after [i] that follows a quote; any other
    field ends at the first delimiter at or after [i]. *)

Definition delim_at (s : jsstring) (j : nat) : Prop :=
  ∃ d, s !! j = Some d ∧ is_delim d = true.

Definition qdelim_at (s : jsstring) (j : nat) : Prop :=
  s !! j = Some QUOTE ∧ delim_at s (S j).

Definition end_at (s : jsstring) (i e : nat) : Prop :=
  if decide (s !! i = Some QUOTE)
  then i < e ∧ qdelim_at s (e - 1) ∧ ∀ j, i ≤ j → j < e - 1 → ¬ qdelim_at s j
  else i ≤ e ∧ delim_at s e ∧ ∀ j, i ≤ j → j < e → ¬ delim_at s j.

(** The value of the field from [i] to [e], lines 94 to 97. *)
Definition field_value (s : jsstring) (i e : nat) : jsstring :=
  let match_ := substring s i e in
  if decide (charAt match_ 0 = [QUOTE])
  then replace_dq (substring match_ 1 (length match_ - 1))
  else match_.

(** The end of the marker whose delimiter is at [e]. *)
Definition marker_end (s : jsstring) (e : nat) : nat :=
  S e + length (spaces (drop (S e) s)).

(** The state after a field [v] ended by the delimiter [d], the marker
    ending at [n]. *)
Definition push (st : state) (v : jsstring) (d : char) (n : nat) : state :=
  if (d =? COMMA)%N
  then {| startIndex := n; records := records st;
          currentRecord := currentRecord st ++ [v] |}
  else {| startIndex := n;
          records := records st ++ [currentRecord st ++ [v]];
          currentRecord := [] |}.

(** ** Runs of the loop *)

Inductive steps (s : jsstring) : state → state → Prop :=
| steps_refl st : steps s st st
| steps_step st st' st'' :
    body s st = Ok (Some st') → steps s st' st'' → steps s st st''.

Definition reachable (s : jsstring) (st : state) : Prop := steps s init st.

Definition all_fields (st : state) : list jsstring :=
  concat (records st) ++ currentRecord st.

Definition records_nonempty (st : state) : Prop :=
  Forall (λ r, r ≠ []) (records st).

(** The field that the text after the last marker yields, if any. *)
Definition trailing (s : jsstring) (st : state) : list jsstring :=
  let remaining := trim (substring_from s (startIndex st)) in
  if decide (remaining = []) then [] else [remaining].

(** ** Un-escaping, joining, descending *)

Definition not_quote (c : char) : Prop := c ≠ QUOTE.

(** The un-escaping as the specification words it: every adjacent pair
    of quote characters, the pairs taken from left to right, becomes one
    quote character, and every other character is kept. *)
Inductive unescaped : jsstring → jsstring → Prop :=
| unescaped_nil : unescaped [] []
| unescaped_pair r r' :
    unescaped r r' → unescaped (QUOTE :: QUOTE :: r) (QUOTE :: r')
| unescaped_other c r r' :
    ¬ (c = QUOTE ∧ head r = Some QUOTE) →
    unescaped r r' → unescaped (c :: r) (c :: r').

(** [r.join(',')] *)
Fixpoint join (r : list jsstring) : jsstring :=
  match r with
  | [] => []
  | f :: r' =>
      match r' with
      | [] => f
      | _ :: _ => f ++ COMMA :: join r'
      end
  end.

(** A field with no comma, carriage return, line feed or quote. *)
Definition plain (f : jsstring) : Prop :=
  Forall (λ c, is_delim c = false ∧ c ≠ QUOTE) f.

#[global] Instance plain_dec f : Decision (plain f).
Proof. unfold plain. apply _. Defined.

(** A field without the spaces it starts with. *)
Definition trimSpaces (f : jsstring) : jsstring :=
  drop (length (spaces f)) f.

(** The descent as the specification words it: key by key, an absent
    result as soon as a key is missing from the value descended into
    (every key is missing from [undefined] and [null]). *)
Definition lookup_key (obj : value) (k : jsstring) : value :=
  match get obj k with
  | Ok v => v
  | _ => VUndefined
  end.

Definition descend (obj : value) (path : list jsstring) : value :=
  foldl lookup_key obj path.

(** ** Notions of the further properties *)

(** The fields and records of a state hold no delimiter and no quote. *)
Definition state_plain (st : state) : Prop :=
  Forall (Forall plain) (records st) ∧ Forall plain (currentRecord st).

(** A table written out: the fields of a record joined by commas, the
    records joined by line feeds. *)
Definition serialize (doc : list (list jsstring)) : jsstring :=
  join_sep [LF] (map join doc).

(** A text with every quote doubled. *)
Definition escape (x : jsstring) : jsstring :=
  flat_map (λ c, if (c =? QUOTE)%N then [QUOTE; QUOTE] else [c]) x.

(** A text written as a quoted field. *)
Definition quoted (x : jsstring) : jsstring := QUOTE :: escape x ++ [QUOTE].

(** What parsing makes of a record joined by commas: the fields after
    the first lose the spaces they start with, the last field is trimmed
    and left out when nothing remains of it, and no record is returned
    when no field is left. *)
Definition rejoined (r : list jsstring) : list (list jsstring) :=
  match r with
  | [] => []
  | f :: r' =>
      let fields := f :: map trimSpaces r' in
      let t := trim (List.last fields []) in
      let out := removelast fields ++ (if decide (t = []) then [] else [t]) in
      if decide (out = []) then [] else [out]
  end.

(** The records [recs] parsed from the rest of an input, put after the
    current record [cur]: the first of them goes on the current record. *)
Definition merge (cur : list jsstring) (recs : list (list jsstring))
  : list (list jsstring) :=
  match recs with
  | [] => if decide (cur = []) then [] else [cur]
  | r :: rs => (cur ++ r) :: rs
  end.

(** The state [st0] of a run on the rest of an input, seen as a state of
    the run on the whole input that had records [recs], current record
    [cur] and cursor [n] when the rest began. *)
Definition resume (recs : list (list jsstring)) (cur : list jsstring) (n : nat)
    (st0 : state) : state :=
  {| startIndex := n + startIndex st0;
     records := match records st0 with
                | [] => recs
                | r :: rs => recs ++ (cur ++ r) :: rs
                end;
     currentRecord := match records st0 with
                      | [] => cur ++ currentRecord st0
                      | _ :: _ => currentRecord st0
                      end |}.

(** The own property [k] of [obj], if it has one. An own property hides
    what the prototype chain has under its name, so [obj[k]] is its
    value on every host. *)
Definition get_own (obj : value) (k : jsstring) : option value :=
  match obj with
  | VStr s =>
      if decide (k = lit "length") then Some (VNum (num_of_nat (length s)))
      else i ← array_index k; c ← s !! i; Some (VStr [c])
  | VArr l =>
      if decide (k = lit "length") then Some (VNum (num_of_nat (length l)))
      else i ← array_index k; l !! i
  | VObj m => m !! k
  | _ => None
  end.

(** [nested_own obj path w]: the names of [path] lead from [obj] to [w],
    each the name of an own property of the value reached so far, and
    that value truthy. *)
Inductive nested_own : value → list jsstring → value → Prop :=
| nested_own_nil obj : nested_own obj [] obj
| nested_own_cons obj k v path w :
    truthy obj = true → get_own obj k = Some v → nested_own v path w →
    nested_own obj (k :: path) w.

(** An object as a value of a document: the objects among these values
    are the ones whose prototype is [Object.prototype]. *)
Definition as_value (o : object) : option value :=
  match proto o with
  | None => Some (VObj (own o))
  | Some _ => None
  end.

(** What the entries [es] have under the name made of the path, a slash
    and [rel]. *)
Definition entry_below (path : jsstring) (es : list (jsstring * value))
    (rel : jsstring) : option value :=
  (list_to_map es : gmap jsstring value) !! (path ++ SLASH :: rel).

(** * Part III: lemmas and theorems *)

(** ** The examples of the specification *)

Example parse_empty : parseCSV (lit "") = Ok [].
Proof. reflexivity. Qed.

Example parse_abc : parseCSV (lit "a,b,c") = Ok [[lit "a"; lit "b"; lit "c"]].
Proof. vm_compute. reflexivity. Qed.

Example parse_abc_lf :
  parseCSV (lit "a,b,c" ++ [LF]) = Ok [[lit "a"; lit "b"; lit "c"]].
Proof. vm_compute. reflexivity. Qed.

Example parse_two_records :
  parseCSV (lit "a,b" ++ [LF] ++ lit "c,d")
    = Ok [[lit "a"; lit "b"]; [lit "c"; lit "d"]].
Proof. vm_compute. reflexivity. Qed.

Example parse_empty_field :
  parseCSV (lit "a,,c") = Ok [[lit "a"; []; lit "c"]].
Proof. vm_compute. reflexivity. Qed.

Example parse_only_field :
  parseCSV (lit "onlyfield") = Ok [[lit "onlyfield"]].
Proof. vm_compute. reflexivity. Qed.

(** An unterminated quoted field is kept as it is, quote included. *)
Example parse_unterminated :
  parseCSV (litq "a,'b,c") = Ok [[lit "a"; litq "'b,c"]].
Proof. vm_compute. reflexivity. Qed.

(** A quote that a delimiter follows ends a quoted field wherever it
    is, be it the quote the field starts with. *)
Example parse_lone_quote :
  parseCSV (litq "',b',d") = Ok [[litq "'"; litq "b'"; lit "d"]].
Proof. vm_compute. reflexivity. Qed.

(** A doubled quote that a delimiter follows is not taken as an
    escaped quote: its second quote closes the field. *)
Example parse_quote_pair_before_comma :
  parseCSV (litq "'a'',b',c") = Ok [[litq "a'"; litq "b'"; lit "c"]].
Proof. vm_compute. reflexivity. Qed.

(** ** Strings: basic facts *)

Lemma spaces_length l : length (spaces l) ≤ length l.
Proof.
  induction l as [|c l IH]; simpl; [lia|].
  destruct (c =? SPACE)%N; simpl; lia.
Qed.

Lemma spaces_all l j : j < length (spaces l) → l !! j = Some SPACE.
Proof.
  revert j; induction l as [|c l IH]; intros j; simpl; [lia|].
  destruct (c =? SPACE)%N eqn:E; simpl; [|lia].
  apply N.eqb_eq in E; subst c.
  destruct j as [|j]; simpl; [done|]. intros ?; apply IH; lia.
Qed.

Lemma spaces_stop l : l !! length (spaces l) ≠ Some SPACE.
Proof.
  induction l as [|c l IH]; simpl; [done|].
  destruct (c =? SPACE)%N eqn:E; simpl; [done|].
  apply N.eqb_neq in E. congruence.
Qed.

Lemma spaces_prefix l : spaces l = take (length (spaces l)) l.
Proof.
  induction l as [|c l IH]; simpl; [done|].
  destruct (c =? SPACE)%N; simpl; [|done]. by rewrite <- IH.
Qed.

Lemma delim_spaces_Some l g :
  delim_spaces l = Some g →
  ∃ d l', l = d :: l' ∧ is_delim d = true ∧ g = d :: spaces l'.
Proof.
  destruct l as [|c l]; simpl; [done|].
  destruct (is_delim c) eqn:E; [|done].
  intros [= <-]. eauto.
Qed.

Lemma delim_spaces_None l :
  delim_spaces l = None → ∀ d, head l = Some d → is_delim d = false.
Proof.
  destruct l as [|c l]; simpl; [done|].
  destruct (is_delim c) eqn:E; [done|]. by intros _ d [= <-].
Qed.

Lemma indexOf_nonneg_iff s c : (0 <= indexOf s c)%Z ↔ c ∈ s.
Proof.
  induction s as [|x s IH]; simpl.
  - split; [lia|]. by intros ?%elem_of_nil.
  - destruct (x =? c)%N eqn:E.
    + apply N.eqb_eq in E; subst. split; [intros _; left|lia].
    + apply N.eqb_neq in E. rewrite elem_of_cons.
      destruct (indexOf s c <? 0)%Z eqn:E'.
      * apply Z.ltb_lt in E'. split; [lia|]. intros [?|?]; [congruence|].
        apply IH in H. lia.
      * apply Z.ltb_ge in E'. split; [|lia]. intros _. right. by apply IH.
Qed.

Lemma spaces_no_comma l : COMMA ∉ spaces l.
Proof.
  induction l as [|c l IH]; simpl; [apply not_elem_of_nil|].
  destruct (c =? SPACE)%N eqn:E; [|apply not_elem_of_nil].
  apply N.eqb_eq in E; subst. rewrite not_elem_of_cons. done.
Qed.

(** ** The patterns: what a match looks like *)

Lemma q_close_Some l m :
  q_close l = Some m →
  ∃ g l', l = QUOTE :: l' ∧ delim_spaces l' = Some g ∧
          m0 m = QUOTE :: g ∧ groups m = [None; Some g].
Proof.
  destruct l as [|c l]; simpl; [done|].
  destruct (c =? QUOTE)%N eqn:E; [|done].
  apply N.eqb_eq in E; subst c.
  destruct (delim_spaces l) as [g|] eqn:Eg; simpl; [|done].
  intros [= <-]. exists g, l. done.
Qed.

Lemma q_close_None l d l' :
  q_close l = None → l = QUOTE :: d :: l' → is_delim d = false.
Proof.
  intros H ->. simpl in H.
  destruct (is_delim d); [done|done].
Qed.

Lemma qFieldEndMarker_None l : qFieldEndMarker l = None → q_close l = None.
Proof.
  destruct l as [|c1 [|c2 l]]; simpl; [done|done|].
  destruct ((c1 =? QUOTE)%N && (c2 =? QUOTE)%N); [|done].
  by destruct (qFieldEndMarker l).
Qed.

(** A match of [qFieldEndMarker] is an odd run of quotes, a delimiter
    and the spaces after it; the last capture is the delimiter with the
    spaces. *)
Lemma qFieldEndMarker_Some l m :
  qFieldEndMarker l = Some m →
  ∃ k g l', l = replicate (2 * k + 1) QUOTE ++ l' ∧ delim_spaces l' = Some g ∧
            m0 m = replicate (2 * k + 1) QUOTE ++ g ∧
            ∃ g1, groups m = [g1; Some g].
Proof.
  remember (length l) as n eqn:Hn. revert l m Hn.
  induction n as [n IH] using lt_wf_ind. intros l m Hn.
  assert (Hclose : q_close l = Some m →
    ∃ k g l', l = replicate (2 * k + 1) QUOTE ++ l' ∧ delim_spaces l' = Some g ∧
              m0 m = replicate (2 * k + 1) QUOTE ++ g ∧
              ∃ g1, groups m = [g1; Some g]).
  { intros (g & l' & -> & Hg & Hm & Hgr)%q_close_Some.
    exists 0, g, l'. simpl. rewrite Hm, Hgr. eauto. }
  destruct l as [|c1 [|c2 l]]; [exact Hclose|exact Hclose|].
  simpl. destruct ((c1 =? QUOTE)%N && (c2 =? QUOTE)%N) eqn:E; [|exact Hclose].
  apply andb_true_iff in E as [->%N.eqb_eq ->%N.eqb_eq].
  destruct (qFieldEndMarker l) as [m'|] eqn:Em; [|exact Hclose].
  intros [= <-]. simpl.
  destruct (IH (length l) ltac:(subst n; simpl; lia) l m' eq_refl Em)
    as (k & g & l' & -> & Hg & Hm & g1 & Hgr).
  exists (S k), g, l'. rewrite Hm, Hgr. simpl.
  replace (k + S (k + 0) + 1) with (S (2 * k + 1)) by lia. simpl.
  repeat split; eauto.
Qed.

(** ** [search]: the leftmost match *)

Lemma search_Some re l i p m :
  search re l i = Some (p, m) →
  ∃ j, p = i + j ∧ j ≤ length l ∧ re (drop j l) = Some m ∧
       ∀ j', j' < j → re (drop j' l) = None.
Proof.
  revert i. induction l as [|c l IH]; intros i; simpl.
  - destruct (re []) eqn:E; [|done]. intros [= <- <-].
    exists 0. repeat split; [lia|done|done|lia].
  - destruct (re (c :: l)) eqn:E.
    + intros [= <- <-]. exists 0. repeat split; [lia|lia|done|lia].
    + intros (j & -> & ? & ? & Hj)%IH. exists (S j).
      repeat split; [lia|lia|done|].
      intros [|j'] ?; [done|]. apply Hj; lia.
Qed.

Lemma search_None re l i :
  search re l i = None → ∀ j, j ≤ length l → re (drop j l) = None.
Proof.
  revert i. induction l as [|c l IH]; intros i; simpl.
  - destruct (re []) eqn:E; [done|]. intros _ [|j] ?; [done|simpl in *; lia].
  - destruct (re (c :: l)) eqn:E; [done|].
    intros H [|j] ?; [done|]. simpl. eapply IH; [done|lia].
Qed.

(** ** Where a field ends: uniqueness and bounds *)

Lemma drop_cons_inv {A} (s : list A) j d l :
  drop j s = d :: l → s !! j = Some d ∧ l = drop (S j) s.
Proof.
  intros H. assert (Hd : s !! j = Some d).
  { replace j with (j + 0) by lia. rewrite <- lookup_drop, H. done. }
  split; [done|]. rewrite (drop_S _ _ _ Hd) in H. congruence.
Qed.

Lemma charAt_quote s i : charAt s i = [QUOTE] ↔ s !! i = Some QUOTE.
Proof.
  unfold charAt. destruct (s !! i); split; congruence.
Qed.

Lemma substring_le s a b :
  a ≤ b → b ≤ length s → substring s a b = take (b - a) (drop a s).
Proof.
  intros. unfold substring.
  rewrite !Nat.min_l by lia. by rewrite Nat.max_r by lia.
Qed.

Lemma end_at_unique s i e e' : end_at s i e → end_at s i e' → e = e'.
Proof.
  unfold end_at. destruct (decide (s !! i = Some QUOTE)).
  - intros (? & Hq & Hf) (? & Hq' & Hf').
    destruct (Nat.lt_trichotomy (e - 1) (e' - 1)) as [?|[?|?]]; [|lia|].
    + destruct (Hf' (e - 1)); [lia|done|done].
    + destruct (Hf (e' - 1)); [lia|done|done].
  - intros (? & Hq & Hf) (? & Hq' & Hf').
    destruct (Nat.lt_trichotomy e e') as [?|[?|?]]; [|lia|].
    + destruct (Hf' e); done.
    + destruct (Hf e'); done.
Qed.

Lemma end_at_bounds s i e : end_at s i e → i ≤ e ∧ e < length s.
Proof.
  unfold end_at. destruct (decide _).
  - intros (? & [_ (d & Hd & _)] & _). apply lookup_lt_Some in Hd. lia.
  - intros (? & (d & Hd & _) & _). apply lookup_lt_Some in Hd. lia.
Qed.

Lemma marker_end_bounds s e : e < length s → e < marker_end s e ≤ length s.
Proof.
  intros. unfold marker_end.
  pose proof (spaces_length (drop (S e) s)) as Hl.
  rewrite length_drop in Hl. lia.
Qed.

(** ** [exec] on the two patterns *)

Lemma fieldEndMarker_Some l m :
  fieldEndMarker l = Some m →
  ∃ d l', l = d :: l' ∧ is_delim d = true ∧
          m0 m = d :: spaces l' ∧ groups m = [Some (d :: spaces l')].
Proof.
  unfold fieldEndMarker. destruct (delim_spaces l) as [g|] eqn:E; [|done].
  apply delim_spaces_Some in E as (d & l' & -> & ? & ->).
  simpl. intros [= <-]. exists d, l'. done.
Qed.

Lemma fieldEndMarker_None l d l' :
  fieldEndMarker l = None → l = d :: l' → is_delim d = false.
Proof.
  intros H ->. unfold fieldEndMarker in H. simpl in H.
  by destruct (is_delim d).
Qed.

Lemma exec_fieldEndMarker s i :
  match exec fieldEndMarker s i with
  | None => ∀ e, i ≤ e → ¬ delim_at s e
  | Some (a, n) =>
      ∃ e d g, i ≤ e ∧ s !! e = Some d ∧ is_delim d = true ∧
        (∀ j, i ≤ j → j < e → ¬ delim_at s j) ∧
        g = d :: spaces (drop (S e) s) ∧ a = [Some g; Some g] ∧
        n = marker_end s e
  end.
Proof.
  unfold exec. destruct (decide (length s < i)) as [Hlen|Hlen].
  { intros e ? (d & Hd%lookup_lt_Some & _). lia. }
  destruct (search fieldEndMarker (drop i s) i) as [[p m]|] eqn:Es; simpl.
  - apply search_Some in Es as (j & -> & Hj & Hm & Hfirst).
    rewrite drop_drop in Hm.
    apply fieldEndMarker_Some in Hm as (d & l' & Hl & Hd & Hm0 & Hgr).
    apply drop_cons_inv in Hl as [Hl ->].
    exists (i + j), d, (d :: spaces (drop (S (i + j)) s)).
    split_and!; [lia|done|done| |done| |].
    + intros j' ? ? (d' & Hd' & Hdel).
      specialize (Hfirst (j' - i) ltac:(lia)). rewrite drop_drop in Hfirst.
      replace (i + (j' - i)) with j' in Hfirst by lia.
      rewrite (drop_S _ _ _ Hd') in Hfirst.
      eapply fieldEndMarker_None in Hfirst; [|done]. congruence.
    + by rewrite Hm0, Hgr.
    + rewrite Hm0. unfold marker_end. simpl. lia.
  - intros e ? (d & Hd & Hdel).
    pose proof (lookup_lt_Some _ _ _ Hd).
    eapply search_None with (j := e - i) in Es;
      [|rewrite length_drop; lia].
    rewrite drop_drop in Es. replace (i + (e - i)) with e in Es by lia.
    rewrite (drop_S _ _ _ Hd) in Es.
    eapply fieldEndMarker_None in Es; [|done]. congruence.
Qed.

Lemma not_qdelim_at_close s j : q_close (drop j s) = None → ¬ qdelim_at s j.
Proof.
  intros Hc [Hq (d & Hd & Hdel)].
  rewrite (drop_S _ _ _ Hq), (drop_S _ _ _ Hd) in Hc.
  eapply q_close_None in Hc; [|done]. congruence.
Qed.

Lemma exec_qFieldEndMarker s i :
  match exec qFieldEndMarker s i with
  | None => ∀ j, i ≤ j → ¬ qdelim_at s j
  | Some (a, n) =>
      ∃ e d g w g1, i < e ∧ s !! (e - 1) = Some QUOTE ∧
        s !! e = Some d ∧ is_delim d = true ∧
        (∀ j, i ≤ j → j < e - 1 → ¬ qdelim_at s j) ∧
        g = d :: spaces (drop (S e) s) ∧ a = [Some w; g1; Some g] ∧
        (COMMA ∈ w ↔ d = COMMA) ∧ n = marker_end s e
  end.
Proof.
  unfold exec. destruct (decide (length s < i)) as [Hlen|Hlen].
  { intros e ? [Hd%lookup_lt_Some _]. lia. }
  destruct (search qFieldEndMarker (drop i s) i) as [[p m]|] eqn:Es; simpl.
  - apply search_Some in Es as (j & -> & Hj & Hm & Hfirst).
    rewrite drop_drop in Hm.
    apply qFieldEndMarker_Some in Hm
      as (k & g & l' & Hl & Hg & Hm0 & g1 & Hgr).
    apply delim_spaces_Some in Hg as (d & l'' & -> & Hd & ->).
    assert (Hlk : ∀ x, s !! (i + j + x) = (replicate (2 * k + 1) QUOTE ++ d :: l'') !! x).
    { intros x. rewrite <- Hl, lookup_drop. done. }
    assert (Hrun : ∀ x, x < 2 * k + 1 → s !! (i + j + x) = Some QUOTE).
    { intros x ?. rewrite Hlk, lookup_app_l by (rewrite length_replicate; lia).
      by apply lookup_replicate_2. }
    assert (He : s !! (i + j + (2 * k + 1)) = Some d).
    { rewrite Hlk, lookup_app_r by (rewrite length_replicate; lia).
      rewrite length_replicate. by replace (2 * k + 1 - (2 * k + 1)) with 0 by lia. }
    assert (Hrest : l'' = drop (S (i + j + (2 * k + 1))) s).
    { replace (S (i + j + (2 * k + 1)))
        with (i + j + (length (replicate (2 * k + 1) QUOTE) + 1))
        by (rewrite length_replicate; lia).
      by rewrite <- drop_drop, Hl, drop_app_add. }
    exists (i + j + (2 * k + 1)), d, (d :: spaces l''), (m0 m), g1.
    split_and!; [| | | | | | |split|].
    + lia.
    + replace (i + j + (2 * k + 1) - 1) with (i + j + 2 * k) by lia.
      apply Hrun; lia.
    + done.
    + done.
    + intros j' ? ? [Hq (d' & Hd' & Hdel)].
      destruct (decide (j' < i + j)) as [Hlt|Hge].
      * specialize (Hfirst (j' - i) ltac:(lia)). rewrite drop_drop in Hfirst.
        replace (i + (j' - i)) with j' in Hfirst by lia.
        apply qFieldEndMarker_None, not_qdelim_at_close in Hfirst.
        apply Hfirst. split; [done|]. by exists d'.
      * specialize (Hrun (S j' - (i + j)) ltac:(lia)).
        replace (i + j + (S j' - (i + j))) with (S j') in Hrun by lia.
        rewrite Hd' in Hrun. injection Hrun as ->. done.
    + by rewrite Hrest.
    + by rewrite Hgr.
    + rewrite Hm0, elem_of_app, elem_of_replicate, elem_of_cons.
      intros [[? _]|[?|?%spaces_no_comma]]; done.
    + intros ->. rewrite Hm0, elem_of_app, elem_of_cons. right; by left.
    + rewrite Hm0, length_app, length_replicate. unfold marker_end.
      rewrite <- Hrest. simpl. lia.
  - intros j ?  Hq. pose proof Hq as [Hd%lookup_lt_Some _].
    eapply search_None with (j := j - i) in Es;
      [|rewrite length_drop; lia].
    rewrite drop_drop in Es. replace (i + (j - i)) with j in Es by lia.
    apply qFieldEndMarker_None, not_qdelim_at_close in Es. done.
Qed.

(** ** One pass of the loop body *)

Lemma end_at_quoted s i e :
  s !! i = Some QUOTE →
  end_at s i e ↔
    i < e ∧ qdelim_at s (e - 1) ∧ ∀ j, i ≤ j → j < e - 1 → ¬ qdelim_at s j.
Proof. intros. unfold end_at. by rewrite decide_True. Qed.

Lemma end_at_unquoted s i e :
  s !! i ≠ Some QUOTE →
  end_at s i e ↔ i ≤ e ∧ delim_at s e ∧ ∀ j, i ≤ j → j < e → ¬ delim_at s j.
Proof. intros. unfold end_at. by rewrite decide_False. Qed.

Lemma comma_test w d :
  (COMMA ∈ w ↔ d = COMMA) → (indexOf w COMMA <? 0)%Z = negb (d =? COMMA)%N.
Proof.
  intros H. destruct (d =? COMMA)%N eqn:E; simpl.
  - apply N.eqb_eq in E. apply Z.ltb_ge, indexOf_nonneg_iff, H, E.
  - apply N.eqb_neq in E. apply Z.ltb_lt.
    destruct (Z.lt_ge_cases (indexOf w COMMA) 0) as [?|Hge]; [done|].
    apply indexOf_nonneg_iff, H in Hge. done.
Qed.

Lemma body_inv s st :
  (body s st = Ok None ∧ ∀ e, ¬ end_at s (startIndex st) e) ∨
  (∃ e d, end_at s (startIndex st) e ∧ s !! e = Some d ∧
     body s st =
       Ok (Some (push st (field_value s (startIndex st) e) d (marker_end s e)))).
Proof.
  unfold body. set (i := startIndex st).
  destruct (decide (charAt s i = [QUOTE])) as [Hq|Hq].
  - apply charAt_quote in Hq.
    pose proof (exec_qFieldEndMarker s i) as Hx.
    destruct (exec qFieldEndMarker s i) as [[a n]|].
    + destruct Hx as (e & d & g & w & g1 & ? & Hc & Hd & Hdel & Hf & -> & -> & Hw & ->).
      right. exists e, d. split_and!; [|done|].
      { apply end_at_quoted; [done|]. split_and!; [done| |done].
        split; [done|]. exists d. by replace (S (e - 1)) with e by lia. }
      assert (Hn : marker_end s e - S (length (spaces (drop (S e) s))) = e)
        by (unfold marker_end; lia).
      revert Hn. generalize (marker_end s e) (spaces (drop (S e) s)).
      intros n sp Hn. cbn. rewrite decide_False by done.
      rewrite (comma_test _ _ Hw), Hn.
      unfold push, field_value. by destruct (d =? COMMA)%N.
    + left. split; [done|]. intros e (? & Hqd & _)%end_at_quoted; [|done].
      apply (Hx (e - 1)); [lia|done].
  - assert (Hq' : s !! i ≠ Some QUOTE) by (by rewrite <- charAt_quote).
    pose proof (exec_fieldEndMarker s i) as Hx.
    destruct (exec fieldEndMarker s i) as [[a n]|].
    + destruct Hx as (e & d & g & ? & Hd & Hdel & Hf & -> & -> & ->).
      right. exists e, d. split_and!; [|done|].
      { apply end_at_unquoted; [done|]. split_and!; [done| |done].
        by exists d. }
      assert (Hw : COMMA ∈ d :: spaces (drop (S e) s) ↔ d = COMMA).
      { rewrite elem_of_cons. split; [|by left].
        intros [?|?%spaces_no_comma]; done. }
      assert (Hn : marker_end s e - length (d :: spaces (drop (S e) s)) = e)
        by (unfold marker_end; simpl; lia).
      revert Hw Hn. generalize (marker_end s e) (d :: spaces (drop (S e) s)).
      intros n g Hw Hn. cbn. rewrite decide_False by done.
      rewrite (comma_test _ _ Hw), Hn.
      unfold push, field_value. by destruct (d =? COMMA)%N.
    + left. split; [done|]. intros e (? & Hqd & _)%end_at_unquoted; [|done].
      by apply (Hx e).
Qed.

Lemma body_break s st :
  (∀ e, ¬ end_at s (startIndex st) e) → body s st = Ok None.
Proof.
  intros Hno. destruct (body_inv s st) as [[? _]|(e & d & He & _)]; [done|].
  by destruct (Hno e).
Qed.

Lemma body_field s st e d :
  end_at s (startIndex st) e → s !! e = Some d →
  body s st =
    Ok (Some (push st (field_value s (startIndex st) e) d (marker_end s e))).
Proof.
  intros He Hd. destruct (body_inv s st) as [[_ Hno]|(e' & d' & He' & Hd' & ->)].
  - by destruct (Hno e).
  - assert (e' = e) as -> by eauto using end_at_unique. congruence.
Qed.

Lemma body_total s st : ∃ o, body s st = Ok o.
Proof.
  destruct (body_inv s st) as [[? _]|(e & d & _ & _ & ?)]; eauto.
Qed.

Lemma push_startIndex st v d n : startIndex (push st v d n) = n.
Proof. unfold push. by destruct (d =? COMMA)%N. Qed.

(** The cursor strictly advances on a pass that finds a marker, and
    stays within the input. *)
Lemma body_advances s st st' :
  body s st = Ok (Some st') →
  startIndex st < startIndex st' ∧ startIndex st' ≤ length s.
Proof.
  destruct (body_inv s st) as [[-> _]|(e & d & He & _ & ->)]; [done|].
  intros [= <-]. rewrite push_startIndex.
  apply end_at_bounds in He as [? ?%(marker_end_bounds s)]. lia.
Qed.

Lemma body_push s st st' :
  body s st = Ok (Some st') →
  ∃ e d, end_at s (startIndex st) e ∧ s !! e = Some d ∧ is_delim d = true ∧
    st' = push st (field_value s (startIndex st) e) d (marker_end s e).
Proof.
  destruct (body_inv s st) as [[-> _]|(e & d & He & Hd & ->)]; [done|].
  intros [= <-]. exists e, d. split_and!; [done|done| |done].
  unfold end_at in He. destruct (decide _).
  - destruct He as (? & [_ (d' & Hd' & ?)] & _).
    replace (S (e - 1)) with e in Hd' by lia. congruence.
  - destruct He as (? & (d' & Hd' & ?) & _). congruence.
Qed.

(** ** Runs of the loop: the loop computes the run *)

Lemma steps_trans s a b c : steps s a b → steps s b c → steps s a c.
Proof. induction 1; eauto using steps. Qed.

Lemma steps_snoc s a b c : steps s a b → body s b = Ok (Some c) → steps s a c.
Proof. intros ? ?. eapply steps_trans; eauto using steps. Qed.

Lemma steps_invariant s (P : state → Prop) a b :
  (∀ st st', P st → body s st = Ok (Some st') → P st') →
  steps s a b → P a → P b.
Proof. intros HP. induction 1; eauto. Qed.

Lemma steps_final_unique s st a b :
  steps s st a → body s a = Ok None →
  steps s st b → body s b = Ok None → a = b.
Proof.
  intros Ha. revert b. induction Ha as [st|st st' st'' Hb Ha IH]; intros b Hna Hsb Hnb.
  - destruct Hsb; [done|congruence].
  - destruct Hsb as [|st st2 st3 Hb2 Hs2]; [congruence|].
    apply IH; [done| |done]. congruence.
Qed.

(** The loop from any state: it makes [n] passes that find a marker,
    [n] at most the length of what is left of the input, and stops on
    the next pass. *)
Lemma loop_run s st :
  ∃ n stf, n ≤ length s - startIndex st ∧
    steps s st stf ∧ body s stf = Ok None ∧
    loop n s st = OutOfFuel ∧ ∀ fuel, n < fuel → loop fuel s st = Ok stf.
Proof.
  remember (length s - startIndex st) as k eqn:Hk. revert st Hk.
  induction k as [k IH] using lt_wf_ind. intros st Hk.
  destruct (body s st) as [[st'|]| |] eqn:Hb;
    [| |by destruct (body_total s st) as [? ?]; congruence..].
  - pose proof (body_advances _ _ _ Hb) as [? ?].
    destruct (IH (length s - startIndex st') ltac:(lia) st' eq_refl)
      as (n & stf & ? & Hs & Hn & Hout & Hok).
    exists (S n), stf. split_and!; [lia|by eapply steps_step|done| |].
    + simpl. by rewrite Hb.
    + intros [|fuel] ?; [lia|]. simpl. rewrite Hb. simpl. apply Hok. lia.
  - exists 0, st. split_and!; [lia|constructor|done|done|].
    intros [|fuel] ?; [lia|]. simpl. by rewrite Hb.
Qed.

Lemma parseCSV_steps s stf :
  steps s init stf → body s stf = Ok None → parseCSV s = Ok (finish s stf).
Proof.
  intros Hs Hn. destruct (loop_run s init) as (n & stf' & Hle & Hs' & Hn' & _ & Hok).
  assert (stf' = stf) as -> by eauto using steps_final_unique.
  unfold parseCSV. rewrite Hok; [done|]. simpl in Hle. lia.
Qed.

Lemma parseCSV_run s :
  ∃ stf, reachable s stf ∧ body s stf = Ok None ∧
         parseCSV s = Ok (finish s stf).
Proof.
  destruct (loop_run s init) as (n & stf & _ & Hs & Hn & _).
  exists stf. eauto using parseCSV_steps.
Qed.

(** ** Records and fields of a state *)

Lemma all_fields_push st v d n :
  all_fields (push st v d n) = all_fields st ++ [v].
Proof.
  unfold all_fields, push. destruct (d =? COMMA)%N; simpl.
  - by rewrite (assoc_L (++)).
  - rewrite concat_app. simpl. by rewrite !app_nil_r, (assoc_L (++)).
Qed.

Lemma records_nonempty_body s st st' :
  records_nonempty st → body s st = Ok (Some st') → records_nonempty st'.
Proof.
  intros Hne (e & d & _ & _ & _ & ->)%body_push.
  unfold records_nonempty, push in *. destruct (d =? COMMA)%N; simpl; [done|].
  apply Forall_app. split; [done|]. apply Forall_singleton.
  intros [_ [=]]%app_eq_nil.
Qed.

Lemma records_nonempty_reachable s st : reachable s st → records_nonempty st.
Proof.
  intros Hs. eapply steps_invariant; [|exact Hs|].
  - eauto using records_nonempty_body.
  - constructor.
Qed.

Lemma finish_nonempty s st :
  records_nonempty st → Forall (λ r, r ≠ []) (finish s st).
Proof.
  intros Hne. unfold finish.
  destruct (decide (0 < length _)) as [Hlen|]; [|done].
  apply Forall_app. split; [done|]. apply Forall_singleton.
  intros Heq. rewrite Heq in Hlen. simpl in Hlen. lia.
Qed.

Lemma parseCSV_records_nonempty s recs :
  parseCSV s = Ok recs → Forall (λ r, r ≠ []) recs.
Proof.
  destruct (parseCSV_run s) as (stf & Hr & _ & ->). intros [= <-].
  by apply finish_nonempty, (records_nonempty_reachable s).
Qed.

(** ** The value of a field *)

Lemma replace_dq_cons c x :
  replace_dq (c :: x) =
    match x with
    | c2 :: r =>
        if (c =? QUOTE)%N && (c2 =? QUOTE)%N then QUOTE :: replace_dq r
        else c :: replace_dq x
    | [] => [c]
    end.
Proof. by destruct x. Qed.

Lemma replace_dq_unescaped x : unescaped x (replace_dq x).
Proof.
  remember (length x) as n eqn:Hn. revert x Hn.
  induction n as [n IH] using lt_wf_ind. intros [|c [|c2 r]] Hn.
  - constructor.
  - simpl. constructor; [by intros [_ ?]|constructor].
  - rewrite replace_dq_cons.
    destruct ((c =? QUOTE)%N && (c2 =? QUOTE)%N) eqn:E.
    + apply andb_true_iff in E as [->%N.eqb_eq ->%N.eqb_eq].
      constructor. eapply IH; [|done]. subst n; simpl; lia.
    + constructor.
      * intros [-> [= ->]]. done.
      * eapply IH; [|done]. subst n; simpl; lia.
Qed.

Lemma unescaped_replace_dq x y : unescaped x y → y = replace_dq x.
Proof.
  induction 1 as [|r r' _ IH|c r r' Hc _ IH]; [done|rewrite IH; reflexivity|].
  subst r'. rewrite (replace_dq_cons c). destruct r as [|c2 r]; [done|].
  destruct ((c =? QUOTE)%N && (c2 =? QUOTE)%N) eqn:E; [|done].
  apply andb_true_iff in E as [->%N.eqb_eq ->%N.eqb_eq]. by destruct Hc.
Qed.

(** Un-escaping removes quotes only. *)
Lemma unescaped_filter x y :
  unescaped x y → filter not_quote y = filter not_quote x.
Proof.
  induction 1 as [|r r' _ IH|c r r' _ _ IH]; [done| |].
  - rewrite !filter_cons_False by (intros Hq; by apply Hq). done.
  - rewrite !(filter_cons _ c), IH. done.
Qed.

Lemma replace_dq_filter x :
  filter not_quote (replace_dq x) = filter not_quote x.
Proof. apply unescaped_filter, replace_dq_unescaped. Qed.

Lemma replace_dq_elem_of c x : c ≠ QUOTE → c ∈ x → c ∈ replace_dq x.
Proof.
  intros Hc Hx.
  assert (c ∈ filter not_quote (replace_dq x)) as [_ ?]%list_elem_of_filter; [|done].
  rewrite replace_dq_filter. by apply list_elem_of_filter.
Qed.

Lemma substring_lookup_0 s i e :
  i < e → e ≤ length s → substring s i e !! 0 = s !! i.
Proof.
  intros. rewrite substring_le by lia.
  rewrite lookup_take, decide_True by lia. rewrite lookup_drop. f_equal. lia.
Qed.

Lemma substring_length s i e :
  i ≤ e → e ≤ length s → length (substring s i e) = e - i.
Proof.
  intros. rewrite substring_le by lia. rewrite length_take, length_drop. lia.
Qed.

Lemma substring_swap s a b : substring s a b = substring s b a.
Proof.
  unfold substring.
  by rewrite (Nat.min_comm (a `min` _)), (Nat.max_comm (a `min` _)).
Qed.

Lemma substring_empty s i : substring s i i = [].
Proof.
  unfold substring. replace (_ - _) with 0 by lia. done.
Qed.

(** A field that does not start with a quote is the text from the
    cursor to the delimiter, unchanged. *)
Lemma field_value_unquoted s i e :
  s !! i ≠ Some QUOTE → i ≤ e → e ≤ length s →
  field_value s i e = substring s i e.
Proof.
  intros Hq ? ?. unfold field_value. rewrite decide_False; [done|].
  rewrite charAt_quote. destruct (decide (i = e)) as [->|].
  - by rewrite substring_empty.
  - by rewrite substring_lookup_0 by lia.
Qed.

(** A field that starts with a quote is un-escaped. *)
Lemma field_value_quoted s i e :
  s !! i = Some QUOTE → i < e → e ≤ length s →
  field_value s i e =
    replace_dq (substring (substring s i e) 1 (length (substring s i e) - 1)).
Proof.
  intros Hq ? ?. unfold field_value. rewrite decide_True; [done|].
  rewrite charAt_quote. by rewrite substring_lookup_0 by lia.
Qed.

(** What is un-escaped is the text between the quote at the cursor and
    the quote before the delimiter (when these are one and the same
    quote, [substring] swaps its arguments and yields that quote). *)
Lemma substring_inner s i e :
  i < e → e ≤ length s →
  substring (substring s i e) 1 (length (substring s i e) - 1) =
  substring s (S i) (e - 1).
Proof.
  intros. rewrite substring_length by lia.
  destruct (decide (e = S i)) as [->|].
  - replace (S i - i - 1) with 0 by lia. replace (S i - 1) with i by lia.
    rewrite (substring_swap _ 1 0), (substring_swap _ (S i) i).
    rewrite (substring_le _ 0 1) by (rewrite ?substring_length; lia).
    rewrite substring_le by lia.
    replace (S i - i) with 1 by lia. rewrite drop_0. simpl. by rewrite take_take.
  - rewrite (substring_le _ 1) by (rewrite ?substring_length; lia).
    rewrite !substring_le by lia.
    rewrite skipn_firstn_comm, take_take, drop_drop.
    f_equal; [lia|f_equal; lia].
Qed.

Lemma substring_elem_of s a b j c :
  a ≤ j → j < b → b ≤ length s → s !! j = Some c → c ∈ substring s a b.
Proof.
  intros ? ? ? Hj. rewrite substring_le by lia.
  apply list_elem_of_lookup. exists (j - a).
  rewrite lookup_take, decide_True by lia. rewrite lookup_drop.
  by replace (a + (j - a)) with j by lia.
Qed.

(** The text of a quoted field and the text between its quotes have the
    same characters other than quotes. *)
Lemma quoted_raw_filter s i e :
  s !! i = Some QUOTE → s !! (e - 1) = Some QUOTE → i < e → e ≤ length s →
  filter not_quote (substring s (S i) (e - 1)) =
  filter not_quote (substring s i e).
Proof.
  intros Hi He ? ?. destruct (decide (e = S i)) as [->|].
  - replace (S i - 1) with i by lia. by rewrite substring_swap.
  - rewrite !substring_le by lia.
    replace (e - i) with (S (e - 1 - S i) + 1) by lia.
    rewrite (drop_S _ _ _ Hi). simpl.
    rewrite filter_cons_False by (intros Hq; by apply Hq).
    rewrite Nat.add_1_r.
    erewrite take_S_r;
      [|rewrite lookup_drop; by replace (S i + (e - 1 - S i)) with (e - 1) by lia].
    rewrite filter_app, filter_cons_False by (intros Hq; by apply Hq).
    by rewrite filter_nil, app_nil_r.
Qed.

(** ** Markers and the trailing text *)

Lemma marker_spaces s e j :
  e < j → j < marker_end s e → s !! j = Some SPACE.
Proof.
  unfold marker_end. intros ? ?.
  pose proof (spaces_all (drop (S e) s) (j - S e) ltac:(lia)) as Hs.
  rewrite lookup_drop in Hs. by replace (S e + (j - S e)) with j in Hs by lia.
Qed.

Lemma marker_end_stop s e : s !! marker_end s e ≠ Some SPACE.
Proof.
  unfold marker_end. pose proof (spaces_stop (drop (S e) s)) as Hs.
  by rewrite lookup_drop in Hs.
Qed.

Lemma substring_from_ge s a : length s ≤ a → substring_from s a = [].
Proof.
  intros. unfold substring_from, substring.
  rewrite (Nat.min_r a), !Nat.min_id, Nat.max_id by lia.
  by replace (length s - length s) with 0 by lia.
Qed.

Lemma finish_fields s st : concat (finish s st) = all_fields st ++ trailing s st.
Proof.
  unfold finish, trailing, all_fields.
  set (cur := if decide (startIndex st < length s) then _ else _).
  assert (Hcur : cur =
    currentRecord st ++
      (if decide (trim (substring_from s (startIndex st)) = []) then []
       else [trim (substring_from s (startIndex st))])).
  { subst cur. destruct (decide (startIndex st < length s)).
    - destruct (decide _); by rewrite ?app_nil_r.
    - rewrite substring_from_ge by lia. simpl. by rewrite app_nil_r. }
  rewrite <- (assoc_L (++)), <- Hcur.
  destruct (decide (0 < length cur)) as [|Hlen].
  - rewrite concat_app. simpl. by rewrite app_nil_r.
  - destruct cur; [by rewrite app_nil_r|simpl in Hlen; lia].
Qed.

(** Every field of the result is pushed by a pass of the loop or is the
    trimmed trailing text. *)
Lemma parseCSV_fields s :
  ∃ stf, reachable s stf ∧ body s stf = Ok None ∧
         parseCSV s = Ok (finish s stf) ∧
         concat (finish s stf) = all_fields stf ++ trailing s stf.
Proof.
  destruct (parseCSV_run s) as (stf & ? & ? & ?).
  exists stf. eauto using finish_fields.
Qed.

(** What a pass that finds a marker does, in full. *)
Lemma body_pass s st st' :
  body s st = Ok (Some st') →
  ∃ e d v, end_at s (startIndex st) e ∧ s !! e = Some d ∧ is_delim d = true ∧
    startIndex st ≤ e ∧ e < length s ∧
    v = field_value s (startIndex st) e ∧
    st' = push st v d (startIndex st') ∧ startIndex st' = marker_end s e ∧
    all_fields st' = all_fields st ++ [v].
Proof.
  intros (e & d & He & Hd & Hdel & ->)%body_push.
  exists e, d, (field_value s (startIndex st) e).
  pose proof (end_at_bounds _ _ _ He) as [? ?].
  rewrite push_startIndex, all_fields_push. done.
Qed.

(** ** The loop on a joined record *)

Lemma plain_lookup f j c :
  plain f → f !! j = Some c → is_delim c = false ∧ c ≠ QUOTE.
Proof. intros Hp Hj. by apply (Forall_lookup_1 _ _ _ _ Hp Hj). Qed.

Lemma substring_from_le s a : a ≤ length s → substring_from s a = drop a s.
Proof.
  intros. unfold substring_from. rewrite substring_le by lia.
  apply take_ge. rewrite length_drop. lia.
Qed.

Lemma spaces_nil l : head l ≠ Some SPACE → spaces l = [].
Proof.
  destruct l as [|c l]; simpl; [done|].
  destruct (c =? SPACE)%N eqn:E; [|done].
  apply N.eqb_eq in E; subst. done.
Qed.

Lemma spaces_app_comma f l : spaces (f ++ COMMA :: l) = spaces f.
Proof.
  induction f as [|c f IH]; simpl; [done|].
  destruct (c =? SPACE)%N; [by rewrite IH|done].
Qed.

Lemma spaces_join f r : spaces (join (f :: r)) = spaces f.
Proof.
  destruct r as [|f2 r]; [done|].
  change (join (f :: f2 :: r)) with (f ++ COMMA :: join (f2 :: r)).
  apply spaces_app_comma.
Qed.

Lemma join_app_head x y r : join ((x ++ y) :: r) = x ++ join (y :: r).
Proof.
  destruct r as [|f2 r]; [done|].
  change (join ((x ++ y) :: f2 :: r)) with ((x ++ y) ++ COMMA :: join (f2 :: r)).
  by rewrite <- (assoc_L (++)).
Qed.

Lemma spaces_trimSpaces f : f = spaces f ++ trimSpaces f.
Proof.
  unfold trimSpaces.
  transitivity (take (length (spaces f)) f ++ drop (length (spaces f)) f);
    [by rewrite take_drop|by rewrite <- spaces_prefix].
Qed.

Lemma trimSpaces_id f : head f ≠ Some SPACE → trimSpaces f = f.
Proof. intros Hf. unfold trimSpaces. by rewrite spaces_nil. Qed.

Lemma trimSpaces_fixed f : trimSpaces f = f → head f ≠ Some SPACE.
Proof.
  destruct f as [|c f]; [done|]. unfold trimSpaces. simpl.
  destruct (c =? SPACE)%N eqn:E; [|by intros _ [= ->]].
  simpl. intros Hd. assert (Hl : length (drop (length (spaces f)) f) = S (length f))
    by (by rewrite Hd).
  rewrite length_drop in Hl. lia.
Qed.

Lemma plain_trimSpaces f : plain f → plain (trimSpaces f).
Proof. apply Forall_drop. Qed.

(** The loop on a joined record of plain fields, from a cursor on the
    first of them: each field but the last is pushed, the ones after the
    first without the spaces they start with, and the loop stops with
    the cursor on what is left of the last one. *)
Lemma run_join r : ∀ f pre st,
  Forall plain (f :: r) → startIndex st = length pre →
  ∃ stf fl,
    steps (pre ++ join (f :: r)) st stf ∧
    body (pre ++ join (f :: r)) stf = Ok None ∧
    startIndex stf ≤ length (pre ++ join (f :: r)) ∧
    drop (startIndex stf) (pre ++ join (f :: r)) = fl ∧
    records stf = records st ∧
    currentRecord stf ++ [fl] = currentRecord st ++ f :: map trimSpaces r.
Proof.
  induction r as [|f2 r IH]; intros f pre st Hplain Hst;
    apply Forall_cons in Hplain as [Hf Hplain].
  - (* the last field: no marker is left *)
    simpl. exists st, f.
    split_and!; [constructor| | | |done|done].
    + apply body_break. intros e He.
      assert (Hq : (pre ++ f) !! startIndex st ≠ Some QUOTE).
      { rewrite Hst, lookup_app_r, Nat.sub_diag by lia.
        intros Hq. by destruct (plain_lookup _ _ _ Hf Hq). }
      apply end_at_unquoted in He as (? & (d & Hd & Hdel) & _); [|done].
      rewrite lookup_app_r in Hd by lia.
      destruct (plain_lookup _ _ _ Hf Hd). congruence.
    + rewrite length_app. lia.
    + by rewrite Hst, drop_app_length.
  - (* a field followed by a comma *)
    set (s := pre ++ join (f :: f2 :: r)).
    set (e := length pre + length f).
    set (sp := spaces f2).
    assert (Hs : s = (pre ++ f ++ [COMMA] ++ sp) ++ join (trimSpaces f2 :: r)).
    { subst s. change (join (f :: f2 :: r)) with (f ++ COMMA :: join (f2 :: r)).
      rewrite (spaces_trimSpaces f2) at 1. rewrite join_app_head.
      by rewrite <- !(assoc_L (++)). }
    assert (Hlk : ∀ j, j < length f → s !! (length pre + j) = f !! j).
    { intros j ?. rewrite Hs, <- !(assoc_L (++)), lookup_app_r by lia.
      rewrite lookup_app_l by lia. f_equal. lia. }
    assert (He : s !! e = Some COMMA).
    { subst e. rewrite Hs, <- !(assoc_L (++)), lookup_app_r by lia.
      rewrite lookup_app_r by lia.
      by replace (length pre + length f - length pre - length f) with 0 by lia. }
    assert (Hq : s !! startIndex st ≠ Some QUOTE).
    { rewrite Hst. destruct (decide (length f = 0)) as [Hz|Hz].
      - replace (length pre) with e by (subst e; lia). by rewrite He.
      - replace (length pre) with (length pre + 0) by lia.
        rewrite Hlk by lia. intros Hq. by destruct (plain_lookup _ _ _ Hf Hq). }
    assert (Hend : end_at s (startIndex st) e).
    { apply end_at_unquoted; [done|]. split_and!; [subst e; lia|by exists COMMA|].
      intros j ? ? (d & Hd & Hdel).
      replace j with (length pre + (j - length pre)) in Hd by lia.
      rewrite Hlk in Hd by (subst e; lia).
      destruct (plain_lookup _ _ _ Hf Hd). congruence. }
    assert (Hrest : drop (S e) s = join (f2 :: r)).
    { subst s. change (join (f :: f2 :: r)) with (f ++ COMMA :: join (f2 :: r)).
      rewrite (cons_middle COMMA), !(assoc_L (++)).
      replace (S e) with (length ((pre ++ f) ++ [COMMA]))
        by (rewrite !length_app; simpl; subst e; lia).
      apply drop_app_length. }
    assert (Hm : marker_end s e = S e + length sp).
    { unfold marker_end. by rewrite Hrest, spaces_join. }
    assert (Hv : field_value s (startIndex st) e = f).
    { pose proof (end_at_bounds _ _ _ Hend) as [? ?].
      rewrite field_value_unquoted, substring_le by (done || lia).
      rewrite Hst, Hs, <- !(assoc_L (++)), drop_app_length.
      replace (e - length pre) with (length f) by (subst e; lia).
      apply take_app_length. }
    pose proof (body_field _ _ _ _ Hend He) as Hb. rewrite Hv, Hm in Hb.
    destruct (IH (trimSpaces f2) (pre ++ f ++ [COMMA] ++ sp)
                (push st f COMMA (S e + length sp)))
      as (stf & fl & Hsteps & Hnone & Hle & Hdrop & Hrec & Hcur).
    + apply Forall_cons in Hplain as [Hf2 Hplain].
      apply Forall_cons. split; [by apply plain_trimSpaces|done].
    + rewrite push_startIndex, !length_app. simpl. subst e. lia.
    + rewrite <- Hs in *. exists stf, fl.
      split_and!; [by eapply steps_step|done..| |].
      * by rewrite Hrec.
      * rewrite Hcur. unfold push. simpl. by rewrite <- (assoc_L (++)).
Qed.

(** Parsing a joined record of plain fields, in closed form: the fields
    after the first lose the spaces they start with, and the last field
    is trimmed and left out when nothing remains of it. *)
Lemma parseCSV_join f r :
  Forall plain (f :: r) →
  ∃ cur fl, cur ++ [fl] = f :: map trimSpaces r ∧
    parseCSV (join (f :: r)) =
      Ok (let cur' := cur ++ (if decide (trim fl = []) then [] else [trim fl]) in
          if decide (0 < length cur') then [cur'] else []).
Proof.
  intros Hplain.
  destruct (run_join r f [] init Hplain eq_refl)
    as (stf & fl & Hsteps & Hnone & Hle & Hdrop & Hrec & Hcur).
  change ([] ++ join (f :: r)) with (join (f :: r)) in *. cbn in Hrec, Hcur.
  exists (currentRecord stf), fl. split; [done|].
  rewrite (parseCSV_steps _ _ Hsteps Hnone). f_equal.
  unfold finish. rewrite Hrec. rewrite substring_from_le, Hdrop by done.
  destruct (decide (startIndex stf < length (join (f :: r)))) as [|Hge].
  - destruct (decide (trim fl = [])); by rewrite ?app_nil_r.
  - assert (fl = []) as ->.
    { rewrite <- Hdrop. apply drop_ge. lia. }
    change (trim []) with (@nil char).
    rewrite (decide_True (P := @nil char = [])) by done. by rewrite app_nil_r.
Qed.

Lemma trimStart_snoc l a :
  is_ws a = false → trimStart (l ++ [a]) = trimStart l ++ [a].
Proof.
  intros Ha. induction l as [|c l IH]; simpl; [by rewrite Ha|].
  by destruct (is_ws c).
Qed.

Lemma trimStart_head l c : head (trimStart l) = Some c → is_ws c = false.
Proof.
  induction l as [|x l IH]; simpl; [done|].
  destruct (is_ws x) eqn:E; [done|]. simpl. by intros [= <-].
Qed.

(** A trimmed string does not start with white space. *)
Lemma trim_head x c : head (trim x) = Some c → is_ws c = false.
Proof.
  unfold trim. destruct (trimStart x) as [|a y] eqn:Hy; [done|].
  assert (Ha : is_ws a = false) by (apply (trimStart_head x); by rewrite Hy).
  simpl. rewrite trimStart_snoc, rev_app_distr by done. simpl.
  by intros [= <-].
Qed.

Lemma trim_trimSpaces x : trim (trimSpaces x) = trim x.
Proof.
  unfold trim. f_equal. f_equal. f_equal.
  unfold trimSpaces. induction x as [|c x IH]; simpl; [done|].
  destruct (c =? SPACE)%N eqn:E; simpl; [|done].
  apply N.eqb_eq in E; subst c. by rewrite IH.
Qed.

Lemma map_fixed {A} (g : A → A) l : map g l = l → Forall (λ x, g x = x) l.
Proof.
  induction l as [|x l IH]; simpl; [constructor|].
  intros [= Hx Hl]. constructor; auto.
Qed.

Lemma map_fixed_2 {A} (g : A → A) l : Forall (λ x, g x = x) l → map g l = l.
Proof. induction 1; simpl; congruence. Qed.

(** The records that joining and parsing leave unchanged, exactly. *)
Lemma parseCSV_join_round_trip_exact r :
  Forall plain r →
  parseCSV (join r) = Ok [r] ↔
    r ≠ [] ∧ Forall (λ f, head f ≠ Some SPACE) (tail r) ∧
    ∀ f, last r = Some f → f ≠ [] ∧ trim f = f.
Proof.
  intros Hplain. destruct r as [|f r].
  { split; [by vm_compute|by intros [? _]]. }
  destruct (parseCSV_join f r Hplain) as (cur & fl & Hcur & ->). simpl.
  split.
  - (* parsed to itself: the conditions hold *)
    intros Heq. split; [done|].
    destruct (decide (trim fl = [])) as [Hfl|Hfl].
    { rewrite app_nil_r in Heq. case_decide; [|done].
      injection Heq as ->. apply (f_equal length) in Hcur.
      rewrite length_app in Hcur. simpl in Hcur. rewrite length_map in Hcur. lia. }
    case_decide; [|done]. injection Heq as Heq.
    assert (Hg : ∀ g, g = trim (trimSpaces g) → trim fl = g →
              head g ≠ Some SPACE ∧ g ≠ [] ∧ trim g = g).
    { intros g Hg Hfg. split_and!.
      - rewrite Hg. intros Hh%trim_head. done.
      - by rewrite <- Hfg.
      - by rewrite Hg at 2; rewrite trim_trimSpaces. }
    destruct r as [|g r _] using rev_ind.
    + apply (app_inj_tail cur []) in Hcur as [-> ->].
      apply (app_inj_tail [] []) in Heq as [_ Heq].
      destruct (Hg f) as (? & ? & ?); [|done|].
      { rewrite <- Heq at 1. by rewrite trim_trimSpaces. }
      split; [constructor|]. by intros f' [= <-].
    + rewrite map_app in Hcur. simpl in Hcur.
      apply (app_inj_tail cur (f :: map trimSpaces r)) in Hcur as [-> ->].
      apply (app_inj_tail _ (f :: r)) in Heq as [[= Hr] Heq].
      destruct (Hg g) as (? & ? & ?); [by rewrite Heq|done|].
      split.
      * apply Forall_app. split; [|by apply Forall_singleton].
        eapply Forall_impl; [by apply map_fixed|].
        intros x. apply trimSpaces_fixed.
      * intros f'. change (f :: r ++ [g]) with ((f :: r) ++ [g]).
        rewrite last_snoc. by intros [= <-].
  - (* the conditions hold: parsed to itself *)
    intros (_ & Hsp & Hlast).
    rewrite map_fixed_2 in Hcur
      by (eapply Forall_impl; [done|]; intros x; apply trimSpaces_id).
    destruct (Hlast fl) as [Hfl Htrim]; [by rewrite <- Hcur, last_snoc|].
    rewrite Htrim, (decide_False (P := fl = [])), Hcur by done.
    by rewrite decide_True by (simpl; lia).
Qed.

(** ** Trimming keeps the text between the white space *)

Lemma trimStart_split x :
  ∃ a, x = a ++ trimStart x ∧ Forall (λ c, is_ws c = true) a.
Proof.
  induction x as [|c x (a & IH & Ha)]; [by exists []|]. simpl.
  destruct (is_ws c) eqn:E.
  - exists (c :: a). split; [by rewrite IH at 1|by constructor].
  - by exists [].
Qed.

(** [trim] removes white space at the two ends and nothing else. *)
Lemma trim_split x :
  ∃ a b, x = a ++ trim x ++ b ∧
         Forall (λ c, is_ws c = true) a ∧ Forall (λ c, is_ws c = true) b.
Proof.
  destruct (trimStart_split x) as (a & Hx & Ha).
  destruct (trimStart_split (rev (trimStart x))) as (b & Hy & Hb).
  exists a, (rev b). split_and!; [|done|by apply Forall_rev].
  unfold trim. rewrite <- rev_app_distr, <- Hy, rev_involutive. done.
Qed.

Lemma trim_cons_nonws a y :
  is_ws a = false → trim (a :: y) = a :: rev (trimStart (rev y)).
Proof.
  intros Ha. unfold trim. simpl. rewrite Ha. simpl.
  rewrite trimStart_snoc, rev_app_distr by done. done.
Qed.

(** ** The final state and the result *)

Lemma reachable_in_bounds s st : reachable s st → startIndex st ≤ length s.
Proof.
  intros Hs.
  apply (steps_invariant s (λ st, startIndex st ≤ length s) init st);
    [|done|simpl; lia].
  intros ? ? _ Hb. by apply body_advances in Hb as [_ ?].
Qed.

(** The fields of the result: those that the passes pushed, then the
    text left after the last marker, trimmed, unless nothing is left of
    it. *)
Lemma parseCSV_trailing s :
  ∃ stf recs, reachable s stf ∧ body s stf = Ok None ∧ parseCSV s = Ok recs ∧
    let rest := trim (drop (startIndex stf) s) in
    concat recs = all_fields stf ++ (if decide (rest = []) then [] else [rest]).
Proof.
  destruct (parseCSV_fields s) as (stf & Hr & Hn & Hp & Hc).
  exists stf, (finish s stf). split_and!; [done..|].
  simpl. rewrite Hc. unfold trailing.
  by rewrite substring_from_le by by apply reachable_in_bounds.
Qed.

Lemma finish_alt s st :
  finish s st =
    if decide (currentRecord st ++ trailing s st = []) then records st
    else records st ++ [currentRecord st ++ trailing s st].
Proof.
  unfold finish, trailing.
  set (cur := if decide (startIndex st < length s) then _ else _).
  assert (Hcur : cur =
    currentRecord st ++
      (if decide (trim (substring_from s (startIndex st)) = []) then []
       else [trim (substring_from s (startIndex st))])).
  { subst cur. destruct (decide (startIndex st < length s)).
    - destruct (decide _); by rewrite ?app_nil_r.
    - rewrite substring_from_ge by lia. simpl. by rewrite app_nil_r. }
  rewrite <- Hcur.
  destruct cur; simpl; repeat case_decide; try done; simpl in *; lia.
Qed.

(** ** What has been pushed stays *)

Lemma steps_to_final s a b f :
  steps s a b → steps s a f → body s f = Ok None → steps s b f.
Proof.
  induction 1 as [st|st st' st'' Hb Hs IH]; intros Hf Hn; [done|].
  apply IH; [|done]. destruct Hf as [|st st2 st3 Hb2 Hs2]; congruence.
Qed.

Lemma steps_prefix s a b :
  steps s a b →
  records a `prefix_of` records b ∧ all_fields a `prefix_of` all_fields b.
Proof.
  induction 1 as [st|st st' st'' Hb Hs [IHr IHf]]; [done|].
  apply body_push in Hb as (e & d & _ & _ & _ & ->). split.
  - etrans; [|exact IHr]. unfold push. destruct (d =? COMMA)%N; simpl; [done|].
    by apply prefix_app_r.
  - etrans; [|exact IHf]. rewrite all_fields_push. by apply prefix_app_r.
Qed.

Lemma steps_final_prefix s st stf :
  reachable s st → reachable s stf → body s stf = Ok None →
  records st `prefix_of` finish s stf ∧
  all_fields st `prefix_of` concat (finish s stf).
Proof.
  intros Hst Hr Hnone.
  destruct (steps_prefix s st stf) as [Hrec Hf]; [by eapply steps_to_final|].
  split.
  - etrans; [exact Hrec|]. unfold finish. destruct (decide _); [|done].
    by apply prefix_app_r.
  - etrans; [exact Hf|]. rewrite finish_fields. by apply prefix_app_r.
Qed.

(** The record that is current in a state is, with the fields it has
    then, the start of the record of the same rank in every later
    state. *)
Lemma steps_record s a b :
  steps s a b →
  ∃ r, (records b ++ [currentRecord b]) !! length (records a) = Some r ∧
       currentRecord a `prefix_of` r.
Proof.
  induction 1 as [st|st st' st'' Hb Hs (r & Hr & Hpre)].
  - exists (currentRecord st). split; [|done].
    by rewrite lookup_app_r, Nat.sub_diag by lia.
  - pose proof (steps_prefix _ _ _ Hs) as [[k Hk] _].
    apply body_push in Hb as (e & d & _ & _ & _ & ->).
    unfold push in *. destruct (d =? COMMA)%N; simpl in *.
    + exists r. split; [done|]. etrans; [|exact Hpre]. by apply prefix_app_r.
    + exists (currentRecord st ++ [field_value s (startIndex st) e]).
      split; [|by apply prefix_app_r].
      rewrite Hk, <- !(assoc_L (++)). rewrite lookup_app_r by lia.
      by rewrite Nat.sub_diag.
Qed.

(** And of the record of the same rank in the result, when it has a
    field. *)
Lemma steps_final_record s st stf :
  reachable s st → reachable s stf → body s stf = Ok None →
  currentRecord st ≠ [] →
  ∃ r, finish s stf !! length (records st) = Some r ∧
       currentRecord st `prefix_of` r.
Proof.
  intros Hst Hr Hnone Hne.
  destruct (steps_record s st stf) as (r & Hr' & Hpre);
    [by eapply steps_to_final|].
  rewrite finish_alt.
  destruct (decide (length (records st) < length (records stf))) as [Hlt|Hge].
  - rewrite lookup_app_l in Hr' by done. exists r. split; [|done].
    destruct (decide _); [done|]. by rewrite lookup_app_l.
  - pose proof (lookup_lt_Some _ _ _ Hr') as Hlen.
    rewrite length_app in Hlen. simpl in Hlen.
    rewrite lookup_app_r in Hr' by lia.
    replace (length (records st) - length (records stf)) with 0 in Hr' by lia.
    injection Hr' as <-.
    exists (currentRecord stf ++ trailing s stf). split.
    + rewrite decide_False.
      * rewrite lookup_app_r by lia.
        by replace (length (records st) - length (records stf)) with 0 by lia.
      * intros [Hc _]%app_eq_nil. rewrite Hc in Hpre.
        by apply prefix_nil_inv in Hpre.
    + etrans; [exact Hpre|]. by apply prefix_app_r.
Qed.

(** ** Quoted fields as they are written *)

Lemma escape_cons c x :
  escape (c :: x) = (if (c =? QUOTE)%N then [QUOTE; QUOTE] else [c]) ++ escape x.
Proof. done. Qed.

Lemma replace_dq_escape x : replace_dq (escape x) = x.
Proof.
  induction x as [|c x IH]; [done|]. rewrite escape_cons.
  destruct (c =? QUOTE)%N eqn:E.
  - apply N.eqb_eq in E; subst c.
    change (replace_dq ([QUOTE; QUOTE] ++ escape x))
      with (QUOTE :: replace_dq (escape x)). by rewrite IH.
  - change ([c] ++ escape x) with (c :: escape x).
    rewrite replace_dq_cons, E. simpl.
    destruct (escape x) as [|c2 r] eqn:Hex; [by rewrite <- IH|by rewrite IH].
Qed.

Lemma escape_head x c : c ≠ QUOTE → head (escape x) = Some c → head x = Some c.
Proof.
  destruct x as [|c' x]; [done|]. rewrite escape_cons.
  destruct (c' =? QUOTE)%N eqn:E; simpl; congruence.
Qed.

(** In an escaped text, a character other than a quote that follows a
    quote follows a quote in the text itself. *)
Lemma escape_quote_then x : ∀ m d,
  escape x !! m = Some QUOTE → escape x !! S m = Some d → d ≠ QUOTE →
  ∃ j, x !! j = Some QUOTE ∧ x !! S j = Some d.
Proof.
  induction x as [|c x IH]; intros m d Hm Hd Hne; [done|].
  rewrite escape_cons in Hm, Hd. destruct (c =? QUOTE)%N eqn:E.
  - apply N.eqb_eq in E; subst c. destruct m as [|[|m]].
    + simpl in Hd. congruence.
    + simpl in Hd. exists 0. split; [done|]. simpl.
      destruct (escape x) as [|d' ex] eqn:Hex; [done|].
      simpl in Hd. injection Hd as ->.
      assert (Hh : head x = Some d) by (apply escape_head; [done|by rewrite Hex]).
      by destruct x.
    + simpl in Hm, Hd. destruct (IH m d Hm Hd Hne) as (j & ? & ?).
      by exists (S j).
  - apply N.eqb_neq in E. destruct m as [|m].
    + simpl in Hm. congruence.
    + simpl in Hm, Hd. destruct (IH m d Hm Hd Hne) as (j & ? & ?).
      by exists (S j).
Qed.

Section Quoted.

(** The text [x] written as a quoted field after [pre], [rest]
    following. *)
Variables (pre x rest : jsstring).

Hypothesis Hhead : ∀ c, head x = Some c → is_delim c = false.
Hypothesis Hadj :
  ∀ j c, x !! j = Some QUOTE → x !! S j = Some c → is_delim c = false.

Let s := pre ++ quoted x ++ rest.
Let n := length (escape x).

Lemma quoted_length : length (quoted x) = n + 2.
Proof. unfold quoted. simpl. rewrite length_app. simpl. subst n. lia. Qed.

Lemma quoted_lookup j : s !! (length pre + j) = (quoted x ++ rest) !! j.
Proof. subst s. rewrite lookup_app_r by lia. f_equal. lia. Qed.

Lemma quoted_open : s !! length pre = Some QUOTE.
Proof.
  replace (length pre) with (length pre + 0) by lia. by rewrite quoted_lookup.
Qed.

Lemma quoted_inner m : m < n → s !! (length pre + S m) = escape x !! m.
Proof.
  intros ?. rewrite quoted_lookup. unfold quoted. simpl.
  rewrite <- (assoc_L (++)). by rewrite lookup_app_l by (subst n; lia).
Qed.

Lemma quoted_close : s !! (length pre + S n) = Some QUOTE.
Proof.
  rewrite quoted_lookup. unfold quoted. simpl. rewrite <- (assoc_L (++)).
  rewrite lookup_app_r by (subst n; lia).
  by replace (n - length (escape x)) with 0 by (subst n; lia).
Qed.

Lemma quoted_after j : s !! (length pre + length (quoted x) + j) = rest !! j.
Proof.
  rewrite <- Nat.add_assoc, quoted_lookup. rewrite lookup_app_r by lia.
  f_equal. lia.
Qed.

(** No quote before the closing one is followed by a delimiter. *)
Lemma quoted_no_qdelim j :
  length pre ≤ j → j < length pre + S n → ¬ qdelim_at s j.
Proof using Hhead Hadj.
  intros ? ? [Hq (c & Hc & Hcdel)].
  destruct (decide (j = length pre)) as [->|].
  - (* the opening quote *)
    destruct (decide (n = 0)) as [Hn|Hn].
    + replace (S (length pre)) with (length pre + S n) in Hc by lia.
      rewrite quoted_close in Hc. injection Hc as <-. done.
    + replace (S (length pre)) with (length pre + S 0) in Hc by lia.
      rewrite quoted_inner in Hc by lia.
      assert (Hx : head x = Some c).
      { apply escape_head; [by intros ->|]. by destruct (escape x). }
      rewrite (Hhead c Hx) in Hcdel. done.
  - (* a quote of the escaped text *)
    replace j with (length pre + S (j - length pre - 1)) in Hq, Hc by lia.
    rewrite quoted_inner in Hq by lia.
    destruct (decide (j - length pre - 1 + 1 = n)) as [Hn|Hn].
    + replace (S (length pre + S (j - length pre - 1)))
        with (length pre + S n) in Hc by lia.
      rewrite quoted_close in Hc. injection Hc as <-. done.
    + replace (S (length pre + S (j - length pre - 1)))
        with (length pre + S (S (j - length pre - 1))) in Hc by lia.
      rewrite quoted_inner in Hc by lia.
      destruct (escape_quote_then x _ c Hq Hc) as (k & Hk & Hk');
        [by intros ->|].
      rewrite (Hadj k c Hk Hk') in Hcdel. done.
Qed.

(** When a delimiter follows the closing quote, the field ends there and
    its value is the text that was quoted. *)
Lemma quoted_end_at d :
  head rest = Some d → is_delim d = true →
  end_at s (length pre) (length pre + length (quoted x)) ∧
  s !! (length pre + length (quoted x)) = Some d ∧
  field_value s (length pre) (length pre + length (quoted x)) = x.
Proof using Hhead Hadj.
  intros Hd Hdel.
  assert (Hd' : s !! (length pre + length (quoted x)) = Some d).
  { rewrite <- (Nat.add_0_r (_ + _)), quoted_after. by destruct rest. }
  assert (Hend : end_at s (length pre) (length pre + length (quoted x))).
  { apply end_at_quoted; [apply quoted_open|]. rewrite quoted_length.
    replace (length pre + (n + 2) - 1) with (length pre + S n) by lia.
    split_and!; [lia| |].
    - split; [apply quoted_close|]. exists d.
      replace (S (length pre + S n)) with (length pre + length (quoted x))
        by (rewrite quoted_length; lia).
      done.
    - intros j ? ?. by apply quoted_no_qdelim. }
  split_and!; [done..|].
  pose proof (end_at_bounds _ _ _ Hend) as [? ?]. pose proof quoted_length.
  rewrite field_value_quoted, substring_inner by (apply quoted_open || lia).
  rewrite quoted_length, substring_le by lia.
  replace (length pre + (n + 2) - 1 - S (length pre)) with n by lia.
  assert (Hdrop : drop (S (length pre)) s = escape x ++ QUOTE :: rest).
  { subst s. replace (S (length pre)) with (length pre + 1) by lia.
    rewrite drop_app_add. unfold quoted. simpl.
    by rewrite <- (assoc_L (++)). }
  rewrite Hdrop. subst n. rewrite take_app_length. apply replace_dq_escape.
Qed.

(** When the closing quote ends the input, no quote from the opening one
    on is followed by a delimiter. *)
Lemma quoted_unterminated j :
  rest = [] → length pre ≤ j → ¬ qdelim_at s j.
Proof using Hhead Hadj.
  intros Hrest ? Hq.
  destruct (decide (j < length pre + S n)); [by apply (quoted_no_qdelim j)|].
  destruct Hq as [_ (c & Hc & _)]. apply lookup_lt_Some in Hc.
  subst s. rewrite Hrest, app_nil_r, length_app, quoted_length in Hc. lia.
Qed.

End Quoted.

Lemma escape_filter x : filter not_quote (escape x) = filter not_quote x.
Proof. by rewrite <- (replace_dq_filter (escape x)), replace_dq_escape. Qed.

(** In an escaped text, a character other than a quote follows a quote
    when it does so in the text itself. *)
Lemma escape_quote_before x : ∀ j c,
  x !! j = Some QUOTE → x !! S j = Some c → c ≠ QUOTE →
  ∃ m, escape x !! m = Some QUOTE ∧ escape x !! S m = Some c.
Proof.
  induction x as [|a x IH]; intros j c Hj Hc Hne; [done|].
  rewrite escape_cons. destruct j as [|j].
  - simpl in Hj, Hc. injection Hj as ->. exists 1.
    destruct x as [|c' x]; [done|]. simpl in Hc. injection Hc as ->.
    rewrite escape_cons. apply N.eqb_neq in Hne. by rewrite Hne.
  - simpl in Hj, Hc. destruct (IH j c Hj Hc Hne) as (m & Hm & Hm').
    destruct (a =? QUOTE)%N; [by exists (S (S m))|by exists (S m)].
Qed.

Section QuotedOnlyIf.

Variables (pre x rest : jsstring).

Abbreviation s := (pre ++ quoted x ++ rest).
Abbreviation n := (length (escape x)).

(** When a quote before the closing one is followed by a delimiter, the
    field that ends at the first such quote is not the text that was
    quoted. *)
Lemma quoted_split e j :
  end_at s (length pre) e →
  length pre ≤ j → j < length pre + S n → qdelim_at s j →
  field_value s (length pre) e ≠ x.
Proof.
  intros He Hj Hjn Hq Hv.
  pose proof (end_at_bounds _ _ _ He) as [_ Hlen].
  apply end_at_quoted in He as (Hie & [Hc (d & Hd & Hdel)] & Hmin);
    [|apply quoted_open].
  assert (Hej : e - 1 ≤ j).
  { destruct (decide (e - 1 ≤ j)); [done|]. destruct (Hmin j); [lia..|done]. }
  replace (S (e - 1)) with e in Hd by lia.
  rewrite field_value_quoted, substring_inner in Hv
    by (apply quoted_open || lia).
  destruct (decide (e = S (length pre))) as [->|Hne].
  - (* the opening quote is taken for the closing one *)
    replace (S (length pre) - 1) with (length pre) in Hv by lia.
    rewrite substring_swap, substring_le in Hv by lia.
    replace (S (length pre) - length pre) with 1 in Hv by lia.
    rewrite (drop_S _ _ _ (quoted_open pre x rest)) in Hv. simpl in Hv.
    rewrite take_0 in Hv. simpl in Hv.
    destruct (decide (n = 0)) as [Hn|Hn].
    + replace (S (length pre)) with (length pre + S n) in Hd by lia.
      rewrite quoted_close in Hd. injection Hd as <-. done.
    + replace (S (length pre)) with (length pre + S 0) in Hd by lia.
      rewrite quoted_inner in Hd by lia.
      assert (Hx : head x = Some d).
      { apply escape_head; [by intros ->|]. by destruct (escape x). }
      rewrite <- Hv in Hx. simpl in Hx. injection Hx as <-. done.
  - (* a quote of the escaped text is taken for the closing one *)
    set (k := e - 1 - S (length pre)).
    assert (Hk : k < n) by (subst k; lia).
    replace (e - 1) with (length pre + S k) in Hc by (subst k; lia).
    rewrite quoted_inner in Hc by done.
    assert (HSk : S k < n).
    { destruct (decide (S k = n)) as [Hkn|]; [|lia].
      replace e with (length pre + S n) in Hd by (subst k; lia).
      rewrite quoted_close in Hd. injection Hd as <-. done. }
    replace e with (length pre + S (S k)) in Hd by (subst k; lia).
    rewrite quoted_inner in Hd by done.
    rewrite substring_le in Hv by lia. fold k in Hv.
    assert (Hdrop : drop (S (length pre)) s = escape x ++ QUOTE :: rest).
    { replace (S (length pre)) with (length pre + 1) by lia.
      rewrite drop_app_add. unfold quoted. simpl.
      by rewrite <- (assoc_L (++)). }
    rewrite Hdrop, take_app_le in Hv by lia.
    apply (f_equal (filter not_quote)) in Hv.
    rewrite replace_dq_filter in Hv.
    rewrite <- (escape_filter x) in Hv.
    rewrite <- (take_drop k (escape x)) in Hv at 2.
    rewrite filter_app in Hv.
    rewrite (drop_S _ _ _ Hc), (drop_S _ _ _ Hd) in Hv.
    rewrite filter_cons_False in Hv by (intros Hq'; by apply Hq').
    rewrite filter_cons_True in Hv by (by intros ->).
    apply (f_equal length) in Hv. rewrite length_app in Hv. simpl in Hv. lia.
Qed.

End QuotedOnlyIf.

(** The two conditions under which a quoted field is read back are the
    only ones: a pass that pushes the text that was quoted shows that
    the text does not start with a delimiter and that no quote of it is
    followed by one. *)
Lemma parseCSV_quoted_only_if pre x d t st k :
  is_delim d = true → startIndex st = length pre →
  body (pre ++ quoted x ++ d :: t) st = Ok (Some (push st x d k)) →
  (∀ c, head x = Some c → is_delim c = false) ∧
  (∀ j c, x !! j = Some QUOTE → x !! S j = Some c → is_delim c = false).
Proof.
  intros Hdel Hst Hb. set (s := pre ++ quoted x ++ d :: t) in *.
  apply body_push in Hb as (e & d' & He & _ & _ & Heq).
  apply (f_equal all_fields) in Heq. rewrite !all_fields_push in Heq.
  apply app_inv_head in Heq. injection Heq as Hv. rewrite Hst in He, Hv.
  assert (Hno : ∀ j, length pre ≤ j → j < length pre + S (length (escape x)) →
                 ¬ qdelim_at s j).
  { intros j ? ? Hq. by apply (quoted_split pre x (d :: t) e j). }
  split.
  - intros c Hc. destruct (is_delim c) eqn:Hcd; [|done].
    destruct (Hno (length pre)); [lia..|].
    split; [apply quoted_open|]. exists c. split; [|done].
    destruct x as [|c' x]; [done|]. simpl in Hc. injection Hc as ->.
    replace (S (length pre)) with (length pre + S 0) by lia.
    subst s. rewrite quoted_inner.
    + rewrite escape_cons. by destruct (c =? QUOTE)%N eqn:E;
        [apply N.eqb_eq in E; subst c|].
    + rewrite escape_cons. destruct (c =? QUOTE)%N; simpl; lia.
  - intros j c Hj Hc. destruct (is_delim c) eqn:Hcd; [|done].
    destruct (escape_quote_before x j c Hj Hc) as (m & Hm & Hm');
      [by intros ->|].
    pose proof (lookup_lt_Some _ _ _ Hm').
    destruct (Hno (length pre + S m)); [lia..|].
    split.
    + subst s. rewrite quoted_inner by lia. done.
    + exists c. split; [|done].
      replace (S (length pre + S m)) with (length pre + S (S m)) by lia.
      subst s. rewrite quoted_inner by lia. done.
Qed.

(** ** A field that starts with a quote and is not ended *)

Lemma body_unterminated s st :
  s !! startIndex st = Some QUOTE →
  (∀ j, startIndex st ≤ j → ¬ qdelim_at s j) → body s st = Ok None.
Proof.
  intros Hq Hno. apply body_break. intros e (? & Hqd & _)%end_at_quoted; [|done].
  apply (Hno (e - 1)); [lia|done].
Qed.

Lemma trim_quote_head s i :
  s !! i = Some QUOTE →
  trim (drop i s) = QUOTE :: rev (trimStart (rev (drop (S i) s))).
Proof. intros Hq. rewrite (drop_S _ _ _ Hq). by apply trim_cons_nonws. Qed.

Lemma finish_quote s st :
  s !! startIndex st = Some QUOTE →
  finish s st =
    records st ++ [currentRecord st ++ [trim (drop (startIndex st) s)]].
Proof.
  intros Hq. pose proof (lookup_lt_Some _ _ _ Hq) as Hlt.
  unfold finish.
  rewrite (decide_True (P := startIndex st < length s)) by done.
  rewrite substring_from_le by lia. rewrite (trim_quote_head _ _ Hq).
  rewrite (decide_False (P := _ :: _ = [])) by done.
  rewrite decide_True; [done|]. rewrite length_app. simpl. lia.
Qed.

Lemma trim_quoted x : trim (quoted x) = quoted x.
Proof.
  unfold quoted. rewrite trim_cons_nonws by done. f_equal.
  rewrite rev_app_distr. simpl. by rewrite rev_involutive.
Qed.

(** ** The properties of [parseCSV] *)

(** C1, as amended. Let [r] be a record of a result of [parseCSV] whose
    fields hold no comma, quote, carriage return or line feed. If
    moreover no field after the first starts with a space and the last
    field is not empty and has no white space at either end, then
    parsing the fields of [r] joined by commas returns the one record
    [r]. (By [parseCSV_join_round_trip_exact] these are the only such
    records.) *)
Theorem parseCSV_join_round_trip s recs r :
  parseCSV s = Ok recs → r ∈ recs → Forall plain r →
  Forall (λ f, head f ≠ Some SPACE) (tail r) →
  (∀ f, last r = Some f → f ≠ [] ∧ trim f = f) →
  parseCSV (join r) = Ok [r].
Proof.
  intros Hs Hr Hplain Hsp Hlast.
  apply parseCSV_join_round_trip_exact; [done|]. split_and!; [|done|done].
  apply parseCSV_records_nonempty in Hs.
  by apply (proj1 (Forall_forall _ _) Hs).
Qed.

Lemma parseCSV_join_round_trip_witness :
  parseCSV (join [lit " y z"; lit "w"]) = Ok [[lit " y z"; lit "w"]].
Proof.
  apply (parseCSV_join_round_trip (litq "' y z',w")
           [[lit " y z"; lit "w"]] [lit " y z"; lit "w"]).
  - vm_compute. reflexivity.
  - apply list_elem_of_here.
  - apply (bool_decide_unpack _). vm_compute. exact I.
  - apply (bool_decide_unpack _). vm_compute. exact I.
  - intros f [= <-]. split; [discriminate|]. vm_compute. reflexivity.
Defined.

(** C1 as the specification states it fails in three ways, each on a
    record of a result of [parseCSV] whose fields are plain: a field
    after the first that starts with a space loses it; an empty last
    field is lost; a last field loses the white space at its ends. *)
Lemma parseCSV_join_round_trip_counterexample :
  (parseCSV (litq "x,' a',b") = Ok [[lit "x"; lit " a"; lit "b"]] ∧
   Forall plain [lit "x"; lit " a"; lit "b"] ∧
   parseCSV (join [lit "x"; lit " a"; lit "b"])
     = Ok [[lit "x"; lit "a"; lit "b"]] ∧
   [lit "x"; lit "a"; lit "b"] ≠ [lit "x"; lit " a"; lit "b"]) ∧
  (parseCSV (lit "a," ++ [LF]) = Ok [[lit "a"; []]] ∧
   Forall plain [lit "a"; []] ∧
   parseCSV (join [lit "a"; []]) = Ok [[lit "a"]] ∧
   [lit "a"] ≠ [lit "a"; []]) ∧
  (parseCSV (lit "a " ++ [LF]) = Ok [[lit "a "]] ∧
   Forall plain [lit "a "] ∧
   parseCSV (join [lit "a "]) = Ok [[lit "a"]] ∧
   [lit "a"] ≠ [lit "a "]).
Proof.
  split_and!;
    first [ by vm_compute | apply (bool_decide_unpack _); by vm_compute ].
Qed.

(** C2, as amended. [parseCSV] on [a,Qsay QQhiQQQ,b] (Q the quote
    character) returns the one record [a], [say QhiQ], [b]. In general a
    pass of the loop pushes exactly one field; when the character at
    the cursor is a quote, the field is the text between the first and
    the last character of the scanned text with every adjacent pair of
    quotes replaced by one quote; when it is not, the field is the
    scanned text unchanged: no un-escaping is applied to it. Nor is any
    applied to the text left after the last marker, whether it starts
    with a quote or not: the fields of the result are the fields that
    the passes pushed and then that text as it is, less the white space
    at its two ends (no field when nothing else is in it). *)
Theorem parseCSV_unescapes_quoted_only :
  parseCSV (litq "a,'say ''hi''',b")
    = Ok [[lit "a"; litq "say 'hi'"; lit "b"]] ∧
  ∀ s,
    (∀ st st', reachable s st → body s st = Ok (Some st') →
       ∃ e d v, end_at s (startIndex st) e ∧ s !! e = Some d ∧
         st' = push st v d (startIndex st') ∧
         all_fields st' = all_fields st ++ [v] ∧
         let raw := substring s (startIndex st) e in
         if decide (s !! startIndex st = Some QUOTE)
         then unescaped (substring raw 1 (length raw - 1)) v
         else v = raw) ∧
    (∃ stf recs, reachable s stf ∧ body s stf = Ok None ∧
       parseCSV s = Ok recs ∧
       let rest := trim (drop (startIndex stf) s) in
       concat recs
         = all_fields stf ++ (if decide (rest = []) then [] else [rest]) ∧
       ∃ a b, drop (startIndex stf) s = a ++ rest ++ b ∧
              Forall (λ c, is_ws c = true) a ∧ Forall (λ c, is_ws c = true) b).
Proof.
  split; [by vm_compute|]. intros s. split.
  - intros st st' _
      (e & d & v & He & Hd & _ & ? & ? & -> & ? & _ & ?)%body_pass.
    exists e, d, (field_value s (startIndex st) e). split_and!; [done..|].
    simpl. destruct (decide (s !! startIndex st = Some QUOTE)) as [Hq|Hq].
    + apply end_at_quoted in He as [? _]; [|done].
      rewrite field_value_quoted by (done || lia). apply replace_dq_unescaped.
    + apply field_value_unquoted; [done|lia..].
  - destruct (parseCSV_trailing s) as (stf & recs & ? & ? & ? & ?).
    exists stf, recs. split_and!; [done..|]. simpl. split; [done|].
    apply trim_split.
Qed.

Lemma parseCSV_unescapes_quoted_only_witness :
  ∃ e d v, end_at (litq "'a''b',c") 0 e ∧ litq "'a''b',c" !! e = Some d ∧
    {| startIndex := 7; records := []; currentRecord := [litq "a'b"] |}
      = push init v d 7 ∧
    [litq "a'b"] = [] ++ [v] ∧
    unescaped (substring (substring (litq "'a''b',c") 0 e) 1
                 (length (substring (litq "'a''b',c") 0 e) - 1)) v.
Proof.
  exact (proj1 (proj2 parseCSV_unescapes_quoted_only (litq "'a''b',c")) init
           {| startIndex := 7; records := [];
              currentRecord := [litq "a'b"] |}
           (steps_refl _ _) eq_refl).
Defined.

(** C2 as the specification states it fails on a quoted field that no
    delimiter follows. The input [QaQQbQ] is the text [aQb] written as a
    quoted field and is scanned from a quote; the one field of the
    result is the input as it is, its pair of quotes not replaced. The
    same holds of the quoted field that ends [a,QbQQcQ]. *)
Lemma parseCSV_unescapes_quoted_only_counterexample :
  (parseCSV (litq "'a''b'") = Ok [[litq "'a''b'"]] ∧
   litq "'a''b'" = quoted (litq "a'b") ∧
   litq "'a''b'" !! 0 = Some QUOTE ∧
   ¬ unescaped (litq "a''b") (litq "'a''b'")) ∧
  (parseCSV (litq "a,'b''c'") = Ok [[lit "a"; litq "'b''c'"]] ∧
   litq "a,'b''c'" = lit "a," ++ quoted (litq "b'c") ∧
   litq "a,'b''c'" !! 2 = Some QUOTE ∧
   ¬ unescaped (litq "b''c") (litq "'b''c'")).
Proof.
  split_and!; try by vm_compute.
  - intros H%unescaped_replace_dq. vm_compute in H. discriminate.
  - intros H%unescaped_replace_dq. vm_compute in H. discriminate.
Qed.

(** C3, as amended. The spaces that follow the delimiter of a field are
    consumed with the marker: the cursor moves past all of them, so none
    is in a field. The field that a marker ends keeps every other space:
    when it does not start with a quote it is the scanned text
    unchanged, and when it does it differs from the scanned text in
    quote characters only. The text left after the last marker is
    trimmed of leading and trailing white space before it becomes the
    last field (and yields no field when nothing is left of it). *)
Theorem parseCSV_spaces :
  ∀ s,
    (∀ st st', reachable s st → body s st = Ok (Some st') →
       ∃ e d v, end_at s (startIndex st) e ∧ s !! e = Some d ∧
         is_delim d = true ∧
         st' = push st v d (startIndex st') ∧
         all_fields st' = all_fields st ++ [v] ∧
         e < startIndex st' ∧
         (∀ j, e < j → j < startIndex st' → s !! j = Some SPACE) ∧
         s !! startIndex st' ≠ Some SPACE ∧
         if decide (s !! startIndex st = Some QUOTE)
         then filter not_quote v
              = filter not_quote (substring s (startIndex st) e)
         else v = substring s (startIndex st) e) ∧
    (∃ stf, reachable s stf ∧ body s stf = Ok None ∧
       parseCSV s = Ok (finish s stf) ∧
       concat (finish s stf) = all_fields stf ++ trailing s stf).
Proof.
  intros s. split; [|apply parseCSV_fields].
  intros st st' _ (e & d & v & He & Hd & ? & ? & ? & -> & ? & Hn & ?)%body_pass.
  exists e, d, (field_value s (startIndex st) e).
  split_and!; [done..| | | |].
  - rewrite Hn. by apply marker_end_bounds.
  - rewrite Hn. apply marker_spaces.
  - rewrite Hn. apply marker_end_stop.
  - destruct (decide (s !! startIndex st = Some QUOTE)) as [Hq|Hq].
    + apply end_at_quoted in He as (? & [Hc _] & _); [|done].
      rewrite field_value_quoted, substring_inner, replace_dq_filter
        by (done || lia).
      apply quoted_raw_filter; [done..|lia].
    + apply field_value_unquoted; [done|lia..].
Qed.

Lemma parseCSV_spaces_witness :
  ∃ e d v, end_at (lit "a b,  c d ") 0 e ∧ lit "a b,  c d " !! e = Some d ∧
    is_delim d = true ∧
    {| startIndex := 6; records := []; currentRecord := [lit "a b"] |}
      = push init v d 6 ∧
    [lit "a b"] = [] ++ [v] ∧ e < 6 ∧
    (∀ j, e < j → j < 6 → lit "a b,  c d " !! j = Some SPACE) ∧
    lit "a b,  c d " !! 6 ≠ Some SPACE ∧
    v = substring (lit "a b,  c d ") 0 e.
Proof.
  exact (proj1 (parseCSV_spaces (lit "a b,  c d ")) init
           {| startIndex := 6; records := []; currentRecord := [lit "a b"] |}
           (steps_refl _ _) eq_refl).
Defined.

(** C3 as the specification states it fails on [a,b ] (a space ends the
    input): the last space follows the letter b, not a delimiter, yet no
    field of the result holds a space. *)
Lemma parseCSV_spaces_counterexample :
  parseCSV (lit "a,b ") = Ok [[lit "a"; lit "b"]] ∧
  lit "a,b " !! 3 = Some SPACE ∧ lit "a,b " !! 2 = Some 98%N ∧
  Forall (Forall (λ f : jsstring, SPACE ∉ f)) [[lit "a"; lit "b"]].
Proof.
  split_and!; [by vm_compute..|].
  apply (bool_decide_unpack _). by vm_compute.
Qed.

(** C4. Every record of the result of [parseCSV] has at least one field,
    whatever the input; a field may be the empty string (as the second
    field of the record parsed from [a,,c]). *)
Theorem parseCSV_no_empty_record :
  (∀ s, ∃ recs, parseCSV s = Ok recs ∧ Forall (λ r, r ≠ []) recs) ∧
  parseCSV (lit "a,,c") = Ok [[lit "a"; []; lit "c"]].
Proof.
  split; [|by vm_compute].
  intros s. destruct (parseCSV_run s) as (stf & Hr & _ & ->).
  eexists; split; [done|].
  by apply finish_nonempty, (records_nonempty_reachable s).
Qed.

(** C5. [parseCSV] is total: on every string it returns a sequence of
    records; it raises no [TypeError] (no capture it reads is unset) and
    its loop does not run on for ever (the fuel is never exhausted). No
    pass of the loop body fails either. *)
Theorem parseCSV_total :
  ∀ s, (∃ recs, parseCSV s = Ok recs) ∧ (∀ st, ∃ o, body s st = Ok o).
Proof.
  intros s. split; [|apply body_total].
  destruct (parseCSV_run s) as (stf & _ & _ & ->). eauto.
Qed.

(** C6. [parseCSV] terminates on every input. A pass of the loop that
    finds a marker strictly advances [startIndex], which stays within
    the input; the first pass that finds no marker leaves the loop; so
    the loop makes [n] passes that find a marker, for some [n] at most
    the length of the input (fuel [n] is not enough, any more is), and
    [parseCSV] returns. *)
Theorem parseCSV_terminates :
  ∀ s,
    (∀ st st', body s st = Ok (Some st') →
       startIndex st < startIndex st' ∧ startIndex st' ≤ length s) ∧
    (∀ st fuel, body s st = Ok None → loop (S fuel) s st = Ok st) ∧
    (∃ n stf, n ≤ length s ∧ loop n s init = OutOfFuel ∧
       ∀ fuel, n < fuel → loop fuel s init = Ok stf) ∧
    (∃ recs, parseCSV s = Ok recs).
Proof.
  intros s. split_and!.
  - apply body_advances.
  - intros st fuel Hb. simpl. by rewrite Hb.
  - destruct (loop_run s init) as (n & stf & Hle & _ & _ & Hout & Hok).
    exists n, stf. simpl in Hle. split_and!; [lia|done|done].
  - destruct (parseCSV_run s) as (stf & _ & _ & ->). eauto.
Qed.

Lemma parseCSV_terminates_witness :
  0 < 2 ∧ 2 ≤ length (lit "a,b").
Proof.
  exact (proj1 (parseCSV_terminates (lit "a,b")) init
           {| startIndex := 2; records := []; currentRecord := [lit "a"] |}
           eq_refl).
Defined.

(** C7, as amended. [parseCSV] on [a,Qb,cQ,d] returns the one record
    [a], [b,c], [d]. Let a text [x] be written as a quoted field
    (between quotes, its quotes doubled) at the cursor of a state that
    the loop goes through, [x] not starting with a delimiter and no
    quote of [x] being followed by a delimiter. When a delimiter follows
    the closing quote, the pass pushes [x] whole, whatever commas it
    holds: in the result [x] is the field after the fields pushed
    before, in the record that was current. When the closing quote ends
    the input, the loop stops and the quoted text, with its quotes and
    its doubled quotes, is the last field of the result, whole. In
    general a pass whose cursor is on a quote ends its field at the
    first quote, from the cursor on, that a delimiter follows, and every
    comma between the quote at the cursor and that quote is a character
    of the field. (By [parseCSV_quoted_only_if] a pass reads a quoted
    text back under the two conditions above only.) *)
Theorem parseCSV_comma_in_quotes :
  parseCSV (litq "a,'b,c',d") = Ok [[lit "a"; lit "b,c"; lit "d"]] ∧
  (∀ pre x rest st,
     reachable (pre ++ quoted x ++ rest) st → startIndex st = length pre →
     (∀ c, head x = Some c → is_delim c = false) →
     (∀ j c, x !! j = Some QUOTE → x !! S j = Some c → is_delim c = false) →
     (∀ d, head rest = Some d → is_delim d = true →
        ∃ st', body (pre ++ quoted x ++ rest) st = Ok (Some st') ∧
          st' = push st x d (startIndex st') ∧
          length pre + length (quoted x) < startIndex st' ∧
          ∀ recs, parseCSV (pre ++ quoted x ++ rest) = Ok recs →
            (all_fields st ++ [x]) `prefix_of` concat recs ∧
            ∃ r, recs !! length (records st) = Some r ∧
                 (currentRecord st ++ [x]) `prefix_of` r) ∧
     (rest = [] →
        body (pre ++ quoted x ++ rest) st = Ok None ∧
        parseCSV (pre ++ quoted x ++ rest)
          = Ok (records st ++ [currentRecord st ++ [quoted x]]))) ∧
  (∀ s st st', reachable s st → body s st = Ok (Some st') →
     s !! startIndex st = Some QUOTE →
     ∃ e d v, end_at s (startIndex st) e ∧
       startIndex st < e ∧ s !! (e - 1) = Some QUOTE ∧
       s !! e = Some d ∧ is_delim d = true ∧
       (∀ j, startIndex st ≤ j → j < e - 1 → ¬ qdelim_at s j) ∧
       st' = push st v d (startIndex st') ∧
       all_fields st' = all_fields st ++ [v] ∧ e < startIndex st' ∧
       ∀ j, startIndex st < j → j < e - 1 → s !! j = Some COMMA → COMMA ∈ v).
Proof.
  split_and!; [by vm_compute| |].
  - intros pre x rest st Hst Hi Hhead Hadj.
    set (s := pre ++ quoted x ++ rest) in *. split.
    + intros d Hd Hdel.
      destruct (quoted_end_at pre x rest Hhead Hadj d Hd Hdel) as (He & Hd' & Hv).
      fold s in He, Hd', Hv.
      pose proof (body_field s st (length pre + length (quoted x)) d) as Hb.
      rewrite Hi in Hb. specialize (Hb He Hd'). rewrite Hv in Hb.
      eexists. split; [exact Hb|]. rewrite push_startIndex.
      split_and!; [done| |].
      * apply marker_end_bounds. by apply lookup_lt_Some in Hd'.
      * intros recs Hrecs.
        destruct (parseCSV_run s) as (stf & Hr & Hnone & Hp).
        rewrite Hp in Hrecs. injection Hrecs as <-.
        assert (Hst' : reachable s (push st x d
                   (marker_end s (length pre + length (quoted x)))))
          by (apply (steps_snoc s init st); [exact Hst|exact Hb]).
        split.
        -- rewrite <- (all_fields_push st x d
                        (marker_end s (length pre + length (quoted x)))).
           by apply steps_final_prefix.
        -- destruct (d =? COMMA)%N eqn:E.
           ++ destruct (steps_final_record s _ stf Hst' Hr Hnone)
                as (r & Hr' & Hpre).
              { unfold push. rewrite E. simpl. by intros [_ [=]]%app_eq_nil. }
              unfold push in Hr', Hpre. rewrite E in Hr', Hpre. eauto.
           ++ destruct (steps_final_prefix s _ stf Hst' Hr Hnone) as [[k Hk] _].
              unfold push in Hk. rewrite E in Hk. simpl in Hk.
              exists (currentRecord st ++ [x]). split; [|done].
              rewrite Hk, <- !(assoc_L (++)). rewrite lookup_app_r by lia.
              by rewrite Nat.sub_diag.
    + intros Hrest.
      assert (Hq : s !! startIndex st = Some QUOTE)
        by (rewrite Hi; apply quoted_open).
      assert (Hb : body s st = Ok None).
      { apply body_unterminated; [done|]. intros j Hj. rewrite Hi in Hj.
        by apply quoted_unterminated. }
      split; [done|].
      rewrite (parseCSV_steps s st Hst Hb), (finish_quote s st Hq).
      do 4 f_equal. subst s. rewrite Hi, Hrest, app_nil_r.
      by rewrite drop_app_length, trim_quoted.
  - intros s st st' _
      (e & d & v & He & Hd & ? & ? & ? & -> & ? & Hn & ?)%body_pass Hq.
    pose proof He as He'.
    apply end_at_quoted in He as (? & [Hc _] & Hmin); [|done].
    exists e, d, (field_value s (startIndex st) e).
    split_and!; [done..| |].
    + rewrite Hn. by apply marker_end_bounds.
    + intros j ? ? Hj.
      rewrite field_value_quoted, substring_inner by (done || lia).
      apply replace_dq_elem_of; [done|].
      eapply substring_elem_of; [| | |done]; lia.
Qed.

Lemma parseCSV_comma_in_quotes_witness :
  ∃ st', body (lit "a," ++ quoted (lit "b,c") ++ lit ",d")
           {| startIndex := 2; records := []; currentRecord := [lit "a"] |}
         = Ok (Some st') ∧
    st' = push {| startIndex := 2; records := []; currentRecord := [lit "a"] |}
            (lit "b,c") COMMA (startIndex st') ∧
    length (lit "a,") + length (quoted (lit "b,c")) < startIndex st' ∧
    ∀ recs, parseCSV (lit "a," ++ quoted (lit "b,c") ++ lit ",d") = Ok recs →
      ([lit "a"] ++ [lit "b,c"]) `prefix_of` concat recs ∧
      ∃ r, recs !! 0 = Some r ∧ ([lit "a"] ++ [lit "b,c"]) `prefix_of` r.
Proof.
  refine (proj1 (proj1 (proj2 parseCSV_comma_in_quotes)
            (lit "a,") (lit "b,c") (lit ",d")
            {| startIndex := 2; records := []; currentRecord := [lit "a"] |}
            _ eq_refl _ _) COMMA eq_refl eq_refl).
  - eapply steps_step; [reflexivity|]. apply steps_refl.
  - intros c [= <-]. reflexivity.
  - intros j c Hj Hc.
    do 3 (destruct j as [|j]; [vm_compute in Hj; discriminate|]).
    vm_compute in Hj. discriminate.
Defined.

(** C7 as the specification states it fails on quoted fields that start
    with a comma or hold a quote that a comma follows. [Q,bQ,d] is the
    text [,b] written as a quoted field, then a comma and [d]: the
    opening quote, which the comma follows, is taken for the closing one
    and the field is split at its comma. [QaQQ,bQ,c] is the text [aQ,b]
    written as a quoted field, then a comma and [c]: the second quote of
    the doubled quote is taken for the closing one and the field is
    split at its comma. *)
Lemma parseCSV_comma_in_quotes_counterexample :
  (parseCSV (litq "',b',d") = Ok [[litq "'"; litq "b'"; lit "d"]] ∧
   litq "',b',d" = quoted (lit ",b") ++ lit ",d" ∧
   [[litq "'"; litq "b'"; lit "d"]] ≠ [[lit ",b"; lit "d"]] ∧
   ¬ [lit ",b"] `prefix_of` concat [[litq "'"; litq "b'"; lit "d"]]) ∧
  (parseCSV (litq "'a'',b',c") = Ok [[litq "a'"; litq "b'"; lit "c"]] ∧
   litq "'a'',b',c" = quoted (litq "a',b") ++ lit ",c" ∧
   [[litq "a'"; litq "b'"; lit "c"]] ≠ [[litq "a',b"; lit "c"]] ∧
   ¬ [litq "a',b"] `prefix_of` concat [[litq "a'"; litq "b'"; lit "c"]]).
Proof.
  split_and!; try by vm_compute.
  - intros [k Hk]. vm_compute in Hk. discriminate.
  - intros [k Hk]. vm_compute in Hk. discriminate.
Qed.

(** ** The properties of [getErrors] *)

Section GetErrorsFacts.

(** The function called, by the outcome of [fn.apply(this, args)]. *)
Variable fn : list value → completion value.

(** C8. [getErrors fn args] returns an array and raises nothing,
    whatever [fn] does on [args]; when [fn] raises [e], the array
    returned holds [e] (and nothing else). *)
Theorem getErrors_never_raises :
  ∀ args,
    (∃ arr, getErrors fn args = Return arr) ∧
    (∀ e, fn args = Raise e →
       ∃ arr, getErrors fn args = Return arr ∧ e ∈ arr ∧ arr = [e]).
Proof.
  intros args. unfold getErrors. split.
  - destruct (fn args); simpl; eauto.
  - intros e ->. simpl. eexists. split_and!; [done| |done].
    apply list_elem_of_here.
Qed.

(** C10. When [fn] returns [v] on [args]: a falsy [v] (such as [false],
    zero, the empty string, [null], [undefined]) yields the empty
    array; an array [v] yields its elements, the arrays among them kept
    as elements; any other truthy [v] yields the array of [v] alone. *)
Theorem getErrors_result_shape :
  ∀ args v, fn args = Return v →
    (truthy v = false → getErrors fn args = Return []) ∧
    (∀ l, v = VArr l → getErrors fn args = Return l) ∧
    (truthy v = true → (∀ l, v ≠ VArr l) → getErrors fn args = Return [v]) ∧
    Forall (λ x, truthy x = false)
      [VBool false; VNum (S754_zero false); VNum (S754_zero true);
       VNum S754_nan; VStr []; VNull; VUndefined].
Proof.
  intros args v Hv. unfold getErrors. rewrite Hv. simpl. unfold js_or.
  split_and!.
  - by intros ->.
  - by intros l ->.
  - intros -> Hl. destruct v; try done. by destruct (Hl elems).
  - by repeat constructor.
Qed.

End GetErrorsFacts.

Lemma getErrors_never_raises_witness :
  ∃ arr, getErrors (λ _, Raise (VStr (lit "boom"))) [VNull] = Return arr ∧
         VStr (lit "boom") ∈ arr ∧ arr = [VStr (lit "boom")].
Proof.
  exact (proj2 (getErrors_never_raises (λ _, Raise (VStr (lit "boom")))
                  [VNull]) (VStr (lit "boom")) eq_refl).
Defined.

Lemma getErrors_result_shape_witness :
  getErrors (λ _, Return (VArr [VStr (lit "e1"); VArr [VNull]])) []
    = Return [VStr (lit "e1"); VArr [VNull]].
Proof.
  exact (proj1 (proj2 (getErrors_result_shape
                  (λ _, Return (VArr [VStr (lit "e1"); VArr [VNull]]))
                  [] (VArr [VStr (lit "e1"); VArr [VNull]]) eq_refl))
           [VStr (lit "e1"); VArr [VNull]] eq_refl).
Defined.

(** ** The properties of [getPropertyPath] *)

Example getPropertyPath_doc_1 :
  getPropertyPath
    (VObj {[ lit "a" := VObj {[ lit "b" := VStr (lit "foo") ]} ]})
    (PArray [lit "a"; lit "b"]) = Ok (VStr (lit "foo")).
Proof. by vm_compute. Qed.

Example getPropertyPath_doc_2 :
  getPropertyPath
    (VObj {[ lit "a" := VObj {[ lit "b" := VStr (lit "foo") ]} ]})
    (PString (lit "a")) = Ok (VObj {[ lit "b" := VStr (lit "foo") ]}).
Proof. by vm_compute. Qed.

(** A path given as one name is the path of that name alone. *)
Lemma getPropertyPath_single obj k :
  getPropertyPath obj (PString k) = getPropertyPath obj (PArray [k]).
Proof. done. Qed.

Lemma descend_undefined path : descend VUndefined path = VUndefined.
Proof. induction path as [|k path IH]; [done|]. exact IH. Qed.

(** Where the function and the descent agree: as long as every value
    met before the end of the path is truthy or [undefined]. *)
Lemma getPropertyPath_array_descend path : ∀ obj,
  (∀ n, n < length path →
     truthy (descend obj (take n path)) = true ∨
     descend obj (take n path) = VUndefined) →
  getPropertyPath_array obj path = Ok (descend obj path).
Proof.
  induction path as [|k path IH]; intros obj Hok; [done|].
  destruct (Hok 0 ltac:(simpl; lia)) as [Ht|Hu].
  2:{ change (obj = VUndefined) in Hu. subst obj. by rewrite descend_undefined. }
  - change (truthy obj = true) in Ht. simpl. rewrite Ht. simpl.
    assert (Hget : get obj k = Ok (lookup_key obj k)).
    { unfold lookup_key. destruct obj; try done; simpl;
        repeat case_decide; done. }
    rewrite Hget. simpl. unfold descend. simpl. apply IH.
    intros n Hn. apply (Hok (S n)). simpl. lia.
Qed.

(** C9 fails on the code: in the object whose property a is the number
    0, the path a, b names no property (0 has no property b, the
    descent of the specification yields [undefined]), yet
    [getPropertyPath] returns 0, the falsy value on which it stopped. *)
Theorem getPropertyPath_falsy_stop :
  getPropertyPath (VObj {[ lit "a" := VNum (S754_zero false) ]})
    (PArray [lit "a"; lit "b"]) = Ok (VNum (S754_zero false)) ∧
  descend (VObj {[ lit "a" := VNum (S754_zero false) ]}) [lit "a"; lit "b"]
    = VUndefined ∧
  get (VNum (S754_zero false)) (lit "b") = Ok VUndefined ∧
  VNum (S754_zero false) ≠ VUndefined.
Proof. split_and!; by vm_compute. Qed.

(** ** Further properties of [parseCSV] *)

(** When no marker is found from a cursor that is not on a quote, no
    delimiter is left at or after the cursor. *)
Lemma no_end_unquoted s i :
  s !! i ≠ Some QUOTE → (∀ e, ¬ end_at s i e) →
  ∀ e, i ≤ e → ¬ delim_at s e.
Proof.
  intros Hq Hno e. induction e as [e IH] using lt_wf_ind. intros Hie Hd.
  apply (Hno e), end_at_unquoted; [done|]. split_and!; [done..|].
  intros j ? ?. by apply IH.
Qed.

Lemma trimStart_Forall (P : char → Prop) x : Forall P x → Forall P (trimStart x).
Proof.
  induction 1 as [|c x Hc Hx IH]; simpl; [constructor|].
  destruct (is_ws c); [done|by constructor].
Qed.

Lemma trim_Forall (P : char → Prop) x : Forall P x → Forall P (trim x).
Proof.
  intros Hx. unfold trim.
  apply Forall_rev, trimStart_Forall, Forall_rev, trimStart_Forall, Hx.
Qed.

Lemma no_delim_no_end s i : (∀ e, i ≤ e → ¬ delim_at s e) → ∀ e, ¬ end_at s i e.
Proof.
  intros Hno e He. unfold end_at in He. destruct (decide _).
  - destruct He as (? & [_ Hd] & _). apply (Hno (S (e - 1))); [lia|done].
  - destruct He as (? & Hd & _). by apply (Hno e).
Qed.

(** An input with no comma, carriage return or line feed is one field:
    the trimmed input, or no record at all when nothing remains of it. *)
Theorem parseCSV_no_delimiter s :
  Forall (λ c, is_delim c = false) s →
  parseCSV s = Ok (if decide (trim s = []) then [] else [[trim s]]).
Proof.
  intros Hs.
  assert (Hb : body s init = Ok None).
  { apply body_break, no_delim_no_end. intros e _ (d & Hd & Hdel).
    pose proof (Forall_lookup_1 _ _ _ _ Hs Hd) as Hf. simpl in Hf. congruence. }
  rewrite (parseCSV_steps s init (steps_refl _ _) Hb). f_equal.
  unfold finish. simpl. destruct (decide (0 < length s)) as [Hl|Hl].
  - rewrite substring_from_le by lia. rewrite drop_0.
    destruct (decide (trim s = [])); [done|]. by rewrite decide_True by (simpl; lia).
  - destruct s; [done|simpl in Hl; lia].
Qed.

Lemma parseCSV_no_delimiter_witness :
  parseCSV (lit "  one field ") =
    Ok (if decide (trim (lit "  one field ") = []) then []
        else [[trim (lit "  one field ")]]).
Proof.
  apply parseCSV_no_delimiter.
  apply (bool_decide_unpack _). vm_compute. exact I.
Defined.

Lemma substring_plain s i e :
  QUOTE ∉ s → i ≤ e → e ≤ length s → (∀ j, i ≤ j → j < e → ¬ delim_at s j) →
  plain (substring s i e).
Proof.
  intros Hq ? ? Hno. rewrite substring_le by lia. apply Forall_lookup_2.
  intros k c Hk. rewrite lookup_take in Hk. case_decide; [|done].
  rewrite lookup_drop in Hk. split.
  - destruct (is_delim c) eqn:E; [|done].
    destruct (Hno (i + k)); [lia..|]. by exists c.
  - intros ->. apply Hq. by eapply list_elem_of_lookup_2.
Qed.

Lemma state_plain_body s st st' :
  QUOTE ∉ s → state_plain st → body s st = Ok (Some st') → state_plain st'.
Proof.
  intros Hq [Hr Hc] (e & d & He & Hd & _ & ->)%body_push.
  assert (Hi : s !! startIndex st ≠ Some QUOTE).
  { intros Hi. apply Hq. by eapply list_elem_of_lookup_2. }
  pose proof (end_at_bounds _ _ _ He) as [? ?].
  apply end_at_unquoted in He as (_ & _ & Hfirst); [|done].
  assert (Hv : plain (field_value s (startIndex st) e)).
  { rewrite field_value_unquoted by (done || lia).
    apply substring_plain; [done|lia..|done]. }
  unfold state_plain, push. destruct (d =? COMMA)%N; simpl.
  - split; [done|]. apply Forall_app. split; [done|by apply Forall_singleton].
  - split; [|constructor]. apply Forall_app. split; [done|].
    apply Forall_singleton, Forall_app. split; [done|by apply Forall_singleton].
Qed.

(** An input that holds no quote yields fields that hold no comma,
    carriage return, line feed or quote: without quotes no delimiter
    ever gets into a field. *)
Theorem parseCSV_quote_free s recs :
  QUOTE ∉ s → parseCSV s = Ok recs → Forall (Forall plain) recs.
Proof.
  intros Hq. destruct (parseCSV_run s) as (stf & Hr & Hnone & ->). intros [= <-].
  assert (Hst : state_plain stf).
  { eapply steps_invariant; [|exact Hr|].
    - intros ? ?. by apply state_plain_body.
    - split; constructor. }
  destruct Hst as [Hrec Hcur].
  assert (Hi : s !! startIndex stf ≠ Some QUOTE).
  { intros Hi. apply Hq. by eapply list_elem_of_lookup_2. }
  assert (Hno : ∀ e, startIndex stf ≤ e → ¬ delim_at s e).
  { apply no_end_unquoted; [done|].
    destruct (body_inv s stf) as [[_ Hno]|(e & d & _ & _ & Hb)]; [done|congruence]. }
  unfold finish.
  set (cur := if decide (startIndex stf < length s) then _ else _).
  assert (Hcur' : Forall plain cur).
  { subst cur. destruct (decide (startIndex stf < length s)); [|done].
    destruct (decide _); [done|]. apply Forall_app. split; [done|].
    apply Forall_singleton, trim_Forall.
    rewrite substring_from_le by lia.
    rewrite <- (take_ge (drop _ s) (length s - startIndex stf))
      by (rewrite length_drop; lia).
    rewrite <- substring_le by lia.
    apply substring_plain; [done|lia|lia|]. intros j ? _. by apply Hno. }
  destruct (decide (0 < length cur)); [|done].
  apply Forall_app. split; [done|by apply Forall_singleton].
Qed.

Lemma parseCSV_quote_free_witness :
  Forall (Forall plain) [[lit "a"; lit "b c"]; [lit "d"]].
Proof.
  apply (parseCSV_quote_free (lit "a, b c" ++ [LF] ++ lit "d ")).
  - apply (bool_decide_unpack _). vm_compute. exact I.
  - vm_compute. reflexivity.
Defined.

(** A cursor on a delimiter yields the empty field: delimiters in a row
    give empty fields. The delimiter decides, as always, whether the
    record goes on (a comma) or ends. *)
Theorem parseCSV_empty_field s st d :
  s !! startIndex st = Some d → is_delim d = true →
  body s st = Ok (Some (push st [] d (marker_end s (startIndex st)))).
Proof.
  intros Hd Hdel.
  assert (Hq : s !! startIndex st ≠ Some QUOTE).
  { rewrite Hd. intros [= ->]. done. }
  assert (He : end_at s (startIndex st) (startIndex st)).
  { apply end_at_unquoted; [done|]. split_and!; [done|by exists d|]. lia. }
  rewrite (body_field _ _ _ _ He Hd).
  pose proof (lookup_lt_Some _ _ _ Hd).
  by rewrite field_value_unquoted, substring_empty by (done || lia).
Qed.

Lemma parseCSV_empty_field_witness :
  body (lit "a,,b") {| startIndex := 2; records := []; currentRecord := [lit "a"] |}
  = Ok (Some (push {| startIndex := 2; records := []; currentRecord := [lit "a"] |}
                [] COMMA (marker_end (lit "a,,b") 2))).
Proof.
  apply (parseCSV_empty_field (lit "a,,b")
           {| startIndex := 2; records := []; currentRecord := [lit "a"] |} COMMA);
    reflexivity.
Defined.



(** What has been pushed stays: the records and the fields of a state
    that the loop goes through are there, unchanged and in the same
    places, in every later state and in the result. *)
Theorem parseCSV_append_only s st recs :
  reachable s st → parseCSV s = Ok recs →
  records st `prefix_of` recs ∧ all_fields st `prefix_of` concat recs.
Proof.
  intros Hst. destruct (parseCSV_run s) as (stf & Hr & Hnone & ->). intros [= <-].
  destruct (steps_prefix s st stf) as [Hrec Hf]; [by eapply steps_to_final|].
  split.
  - etrans; [exact Hrec|]. unfold finish. destruct (decide _); [|done].
    by apply prefix_app_r.
  - etrans; [exact Hf|]. rewrite finish_fields. by apply prefix_app_r.
Qed.

Lemma parseCSV_append_only_witness :
  [[lit "a"; lit "b"]] `prefix_of` [[lit "a"; lit "b"]; [lit "c"; lit "d"]] ∧
  ([lit "a"; lit "b"] ++ [lit "c"]) `prefix_of`
    concat [[lit "a"; lit "b"]; [lit "c"; lit "d"]].
Proof.
  apply (parseCSV_append_only (lit "a,b" ++ [LF] ++ lit "c,d")
           {| startIndex := 6; records := [[lit "a"; lit "b"]];
              currentRecord := [lit "c"] |}).
  - eapply steps_step; [reflexivity|].
    eapply steps_step; [reflexivity|].
    eapply steps_step; [reflexivity|]. apply steps_refl.
  - vm_compute. reflexivity.
Defined.

Lemma serialize_field_comma f f2 r doc :
  serialize ((f :: f2 :: r) :: doc)
  = f ++ COMMA :: serialize ((f2 :: r) :: doc).
Proof.
  unfold serialize. destruct doc as [|r2 doc]; simpl; [done|].
  by rewrite <- (assoc_L (++)).
Qed.

Lemma serialize_field_lf f r2 doc :
  serialize ([f] :: r2 :: doc) = f ++ LF :: serialize (r2 :: doc).
Proof. done. Qed.

Lemma serialize_head f r doc :
  head f ≠ Some SPACE → head (serialize ((f :: r) :: doc)) ≠ Some SPACE.
Proof.
  intros Hf. destruct r as [|f2 r].
  - destruct doc as [|r2 doc]; [done|].
    rewrite serialize_field_lf. by destruct f.
  - rewrite serialize_field_comma. by destruct f.
Qed.

(** A pass on a plain field that a delimiter follows, with no space
    after the delimiter: the field is pushed as it is. *)
Lemma pass_plain pre f d t st :
  plain f → is_delim d = true → head t ≠ Some SPACE →
  startIndex st = length pre →
  body (pre ++ f ++ d :: t) st
  = Ok (Some (push st f d (length pre + length f + 1))).
Proof.
  intros Hf Hdel Ht Hst.
  set (s := pre ++ f ++ d :: t). set (e := length pre + length f).
  assert (Hlk : ∀ j, j < length f → s !! (length pre + j) = f !! j).
  { intros j ?. subst s. rewrite lookup_app_r by lia.
    rewrite lookup_app_l by lia. f_equal. lia. }
  assert (He : s !! e = Some d).
  { subst s e. rewrite lookup_app_r by lia. rewrite lookup_app_r by lia.
    by replace (length pre + length f - length pre - length f) with 0 by lia. }
  assert (Hq : s !! startIndex st ≠ Some QUOTE).
  { rewrite Hst. destruct (decide (length f = 0)) as [Hz|Hz].
    - replace (length pre) with e by (subst e; lia). rewrite He.
      intros [= ->]. done.
    - replace (length pre) with (length pre + 0) by lia.
      rewrite Hlk by lia. intros Hq. by destruct (plain_lookup _ _ _ Hf Hq). }
  assert (Hend : end_at s (startIndex st) e).
  { apply end_at_unquoted; [done|]. split_and!; [subst e; lia|by exists d|].
    intros j ? ? (d' & Hd & Hdel').
    replace j with (length pre + (j - length pre)) in Hd by lia.
    rewrite Hlk in Hd by (subst e; lia).
    destruct (plain_lookup _ _ _ Hf Hd). congruence. }
  assert (Hrest : drop (S e) s = t).
  { subst s. rewrite (cons_middle d), !(assoc_L (++)).
    replace (S e) with (length ((pre ++ f) ++ [d]))
      by (rewrite !length_app; simpl; subst e; lia).
    apply drop_app_length. }
  assert (Hm : marker_end s e = length pre + length f + 1).
  { unfold marker_end. rewrite Hrest, spaces_nil by done. simpl. subst e. lia. }
  assert (Hv : field_value s (startIndex st) e = f).
  { pose proof (end_at_bounds _ _ _ Hend) as [? ?].
    rewrite field_value_unquoted, substring_le by (done || lia).
    rewrite Hst. subst s. rewrite drop_app_length.
    replace (e - length pre) with (length f) by (subst e; lia).
    apply take_app_length. }
  by rewrite (body_field _ _ _ _ Hend He), Hv, Hm.
Qed.

(** The loop on a table written out, from a cursor on one of its
    fields. *)
Lemma run_serialize doc : ∀ r f pre st,
  Forall (λ r, r ≠ []) doc →
  Forall plain (f :: r ++ concat doc) →
  Forall (λ f, head f ≠ Some SPACE) (r ++ concat doc) →
  (∀ fl, last (f :: r ++ concat doc) = Some fl → fl ≠ [] ∧ trim fl = fl) →
  startIndex st = length pre →
  ∃ stf,
    steps (pre ++ serialize ((f :: r) :: doc)) st stf ∧
    body (pre ++ serialize ((f :: r) :: doc)) stf = Ok None ∧
    finish (pre ++ serialize ((f :: r) :: doc)) stf
    = records st ++ (currentRecord st ++ f :: r) :: doc.
Proof.
  induction doc as [|r2 doc IHdoc]; intros r;
    induction r as [|f2 r IHr]; intros f pre st Hne Hplain Hsp Hlast Hst;
    apply Forall_cons in Hplain as [Hf Hplain].
  - (* the last field of the table *)
    change (serialize [[f]]) with f. destruct (Hlast f eq_refl) as [Hfne Htrim].
    assert (Hlen : 0 < length f) by (destruct f; [done|simpl; lia]).
    exists st. split_and!; [constructor| |].
    + apply body_break. intros e He.
      assert (Hq : (pre ++ f) !! startIndex st ≠ Some QUOTE).
      { rewrite Hst, lookup_app_r, Nat.sub_diag by lia.
        intros Hq. by destruct (plain_lookup _ _ _ Hf Hq). }
      apply end_at_unquoted in He as (? & (d & Hd & Hdel) & _); [|done].
      rewrite lookup_app_r in Hd by lia.
      destruct (plain_lookup _ _ _ Hf Hd). congruence.
    + unfold finish.
      rewrite (decide_True (P := startIndex st < length (pre ++ f)))
        by (rewrite length_app; lia).
      rewrite substring_from_le by (rewrite length_app; lia).
      rewrite Hst, drop_app_length, Htrim.
      rewrite (decide_False (P := f = [])) by done.
      rewrite decide_True; [done|]. rewrite length_app. simpl. lia.
  - (* a field followed by a comma, last record *)
    rewrite serialize_field_comma.
    apply Forall_cons in Hsp as [Hf2 Hsp].
    pose proof (pass_plain pre f COMMA (serialize [f2 :: r]) st Hf eq_refl
                  (serialize_head _ _ _ Hf2) Hst) as Hb.
    destruct (IHr f2 (pre ++ f ++ [COMMA])
                (push st f COMMA (length pre + length f + 1)))
      as (stf & Hsteps & Hnone & Hfin); [done|done|done| | |].
    { intros fl Hfl. apply Hlast.
      by rewrite <- app_comm_cons, last_cons_cons, app_comm_cons. }
    { rewrite push_startIndex, !length_app. simpl. lia. }
    rewrite <- !(assoc_L (++)) in *. simpl in *.
    exists stf. split_and!; [by eapply steps_step|done|].
    rewrite Hfin. unfold push. simpl. by rewrite <- (assoc_L (++)).
  - (* the last field of a record that is not the last *)
    destruct r2 as [|f2 r2].
    { apply Forall_cons in Hne as [? _]. done. }
    rewrite serialize_field_lf.
    change (Forall (λ f, head f ≠ Some SPACE) (f2 :: r2 ++ concat doc)) in Hsp.
    change (Forall plain (f2 :: r2 ++ concat doc)) in Hplain.
    apply Forall_cons in Hsp as [Hf2 Hsp].
    apply Forall_cons in Hne as [_ Hne].
    pose proof (pass_plain pre f LF (serialize ((f2 :: r2) :: doc)) st Hf eq_refl
                  (serialize_head _ _ _ Hf2) Hst) as Hb.
    destruct (IHdoc r2 f2 (pre ++ f ++ [LF])
                (push st f LF (length pre + length f + 1)))
      as (stf & Hsteps & Hnone & Hfin); [done|done|done| | |].
    { intros fl Hfl. apply Hlast.
      change (last (f :: f2 :: r2 ++ concat doc) = Some fl).
      by rewrite last_cons_cons. }
    { rewrite push_startIndex, !length_app. simpl. lia. }
    rewrite <- !(assoc_L (++)) in *. simpl in *.
    exists stf. split_and!; [by eapply steps_step|done|].
    rewrite Hfin. unfold push. simpl. by rewrite <- (assoc_L (++)).
  - (* a field followed by a comma *)
    rewrite serialize_field_comma.
    apply Forall_cons in Hsp as [Hf2 Hsp].
    pose proof (pass_plain pre f COMMA (serialize ((f2 :: r) :: r2 :: doc)) st
                  Hf eq_refl (serialize_head _ _ _ Hf2) Hst) as Hb.
    destruct (IHr f2 (pre ++ f ++ [COMMA])
                (push st f COMMA (length pre + length f + 1)))
      as (stf & Hsteps & Hnone & Hfin); [done|done|done| | |].
    { intros fl Hfl. apply Hlast.
      by rewrite <- app_comm_cons, last_cons_cons, app_comm_cons. }
    { rewrite push_startIndex, !length_app. simpl. lia. }
    rewrite <- !(assoc_L (++)) in *. simpl in *.
    exists stf. split_and!; [by eapply steps_step|done|].
    rewrite Hfin. unfold push. simpl. by rewrite <- (assoc_L (++)).
Qed.

(** Writing a table out and parsing it gives the table back, when its
    records are not empty, its fields hold no comma, carriage return,
    line feed or quote, no field but the very first starts with a space,
    and the very last field is not empty and has no white space at
    either end. (Fields that end a record other than the last may be
    empty.) *)
Theorem parseCSV_serialize doc :
  Forall (λ r, r ≠ []) doc → Forall (Forall plain) doc →
  Forall (λ f, head f ≠ Some SPACE) (tail (concat doc)) →
  (∀ f, last (concat doc) = Some f → f ≠ [] ∧ trim f = f) →
  parseCSV (serialize doc) = Ok doc.
Proof.
  intros Hne Hplain Hsp Hlast. destruct doc as [|[|f r] doc].
  - by vm_compute.
  - apply Forall_cons in Hne as [? _]. done.
  - apply Forall_cons in Hne as [_ Hne].
    destruct (run_serialize doc r f [] init) as (stf & Hsteps & Hnone & Hfin);
      [done| |done|done|done|].
    { by apply Forall_concat in Hplain. }
    change ([] ++ serialize ((f :: r) :: doc))
      with (serialize ((f :: r) :: doc)) in *.
    by rewrite (parseCSV_steps _ _ Hsteps Hnone), Hfin.
Qed.

Lemma parseCSV_serialize_witness :
  parseCSV (serialize [[lit " a"; lit "b c"; []]; [[]]; [lit "d"; lit "e"]])
  = Ok [[lit " a"; lit "b c"; []]; [[]]; [lit "d"; lit "e"]].
Proof.
  apply parseCSV_serialize.
  - apply (bool_decide_unpack _). vm_compute. exact I.
  - apply (bool_decide_unpack _). vm_compute. exact I.
  - apply (bool_decide_unpack _). vm_compute. exact I.
  - intros f [= <-]. split; [discriminate|]. vm_compute. reflexivity.
Defined.

(** A field written in quotes with its quotes doubled is read back as
    it was, whatever delimiters it holds, provided it does not start
    with a delimiter and none of its quotes is followed by a delimiter. *)
Theorem parseCSV_quoted_field pre x d t st :
  (∀ c, head x = Some c → is_delim c = false) →
  (∀ j c, x !! j = Some QUOTE → x !! S j = Some c → is_delim c = false) →
  is_delim d = true → startIndex st = length pre →
  body (pre ++ quoted x ++ d :: t) st
  = Ok (Some (push st x d
                (marker_end (pre ++ quoted x ++ d :: t)
                   (length pre + length (quoted x))))).
Proof.
  intros Hhead Hadj Hdel Hst.
  destruct (quoted_end_at pre x (d :: t) Hhead Hadj d eq_refl Hdel)
    as (He & Hd & Hv).
  pose proof (body_field (pre ++ quoted x ++ d :: t) st
                (length pre + length (quoted x)) d) as Hb.
  rewrite Hst in Hb. specialize (Hb He Hd). by rewrite Hv in Hb.
Qed.

Lemma parseCSV_quoted_field_witness :
  body (lit "a," ++ quoted (litq "x,'y' z") ++ COMMA :: lit " b")
    {| startIndex := 2; records := []; currentRecord := [lit "a"] |}
  = Ok (Some (push {| startIndex := 2; records := []; currentRecord := [lit "a"] |}
                (litq "x,'y' z") COMMA
                (marker_end (lit "a," ++ quoted (litq "x,'y' z") ++ COMMA :: lit " b")
                   (length (lit "a,") + length (quoted (litq "x,'y' z")))))).
Proof.
  apply (parseCSV_quoted_field (lit "a,") (litq "x,'y' z") COMMA (lit " b")).
  - intros c [= <-]. reflexivity.
  - intros j c Hj Hc.
    do 7 (destruct j as [|j];
      [first [ vm_compute in Hj; discriminate
             | vm_compute in Hc; injection Hc as <-; reflexivity ]|]).
    vm_compute in Hj. discriminate.
  - reflexivity.
  - reflexivity.
Defined.

(** Joining by commas fields that hold no comma, carriage return, line
    feed or quote, and parsing the result, gives [rejoined]. *)
Theorem parseCSV_join_plain r :
  Forall plain r → parseCSV (join r) = Ok (rejoined r).
Proof.
  intros Hplain. destruct r as [|f r]; [by vm_compute|].
  destruct (parseCSV_join f r Hplain) as (cur & fl & Hcur & ->).
  unfold rejoined. rewrite <- Hcur, removelast_last, last_last. simpl.
  f_equal. set (out := cur ++ _).
  destruct (decide (0 < length out)), (decide (out = [])) as [Ho|Ho];
    [rewrite Ho in *; simpl in *; lia|done|done|].
  destruct out; [done|simpl in *; lia].
Qed.

Lemma parseCSV_join_plain_witness :
  parseCSV (join [lit "a"; lit "  b"; lit " "])
  = Ok (rejoined [lit "a"; lit "  b"; lit " "]).
Proof.
  apply parseCSV_join_plain. apply (bool_decide_unpack _). vm_compute. exact I.
Defined.

(** A record of such fields that comes back unchanged from joining and
    parsing has no field after the first that starts with a space, and
    its last field is not empty and has no white space at either end. *)
Theorem parseCSV_join_fixed_only_if r :
  Forall plain r → parseCSV (join r) = Ok [r] →
  Forall (λ f, head f ≠ Some SPACE) (tail r) ∧
  ∀ f, last r = Some f → f ≠ [] ∧ trim f = f.
Proof.
  intros Hplain Heq.
  by apply (parseCSV_join_round_trip_exact r Hplain) in Heq as (_ & ? & ?).
Qed.

Lemma parseCSV_join_fixed_only_if_witness :
  Forall (λ f : jsstring, head f ≠ Some SPACE) (tail [lit " a"; lit "b"]) ∧
  ∀ f, last [lit " a"; lit "b"] = Some f → f ≠ [] ∧ trim f = f.
Proof.
  apply parseCSV_join_fixed_only_if.
  - apply (bool_decide_unpack _). vm_compute. exact I.
  - vm_compute. reflexivity.
Defined.

Section Shift.

Variables (pre t : jsstring).

Lemma shift_lookup j : (pre ++ t) !! (length pre + j) = t !! j.
Proof. rewrite lookup_app_r by lia. f_equal. lia. Qed.

Lemma shift_delim_at j : delim_at (pre ++ t) (length pre + j) ↔ delim_at t j.
Proof. unfold delim_at. by rewrite shift_lookup. Qed.

Lemma shift_qdelim_at j : qdelim_at (pre ++ t) (length pre + j) ↔ qdelim_at t j.
Proof.
  unfold qdelim_at. rewrite shift_lookup.
  replace (S (length pre + j)) with (length pre + S j) by lia.
  by rewrite shift_delim_at.
Qed.

Lemma shift_end_at i e :
  end_at (pre ++ t) (length pre + i) (length pre + e) ↔ end_at t i e.
Proof.
  unfold end_at. rewrite shift_lookup.
  destruct (decide (t !! i = Some QUOTE)).
  - split; intros (? & Hq & Hf).
    + split_and!; [lia| |].
      * apply shift_qdelim_at. by replace (length pre + (e - 1))
          with (length pre + e - 1) by lia.
      * intros j ? ? ?%shift_qdelim_at. apply (Hf (length pre + j)); [lia..|done].
    + split_and!; [lia| |].
      * replace (length pre + e - 1) with (length pre + (e - 1)) by lia.
        by apply shift_qdelim_at.
      * intros j ? ? Hj. replace j with (length pre + (j - length pre)) in Hj by lia.
        apply shift_qdelim_at in Hj. apply (Hf (j - length pre)); [lia..|done].
  - split; intros (? & Hq & Hf).
    + split_and!; [lia|by apply shift_delim_at|].
      intros j ? ? ?%shift_delim_at. apply (Hf (length pre + j)); [lia..|done].
    + split_and!; [lia|by apply shift_delim_at|].
      intros j ? ? Hj. replace j with (length pre + (j - length pre)) in Hj by lia.
      apply shift_delim_at in Hj. apply (Hf (j - length pre)); [lia..|done].
Qed.

Lemma shift_substring a b :
  a ≤ b → b ≤ length t →
  substring (pre ++ t) (length pre + a) (length pre + b) = substring t a b.
Proof.
  intros. rewrite !substring_le by (rewrite ?length_app; lia).
  rewrite drop_app_add. f_equal. lia.
Qed.

Lemma shift_field_value i e :
  i ≤ e → e ≤ length t →
  field_value (pre ++ t) (length pre + i) (length pre + e) = field_value t i e.
Proof. intros. unfold field_value. by rewrite shift_substring. Qed.

Lemma shift_marker_end e :
  marker_end (pre ++ t) (length pre + e) = length pre + marker_end t e.
Proof.
  unfold marker_end.
  replace (S (length pre + e)) with (length pre + S e) by lia.
  rewrite drop_app_add. lia.
Qed.

Lemma resume_push recs cur st0 v d n :
  resume recs cur (length pre) (push st0 v d n)
  = push (resume recs cur (length pre) st0) v d (length pre + n).
Proof.
  unfold resume, push. destruct (d =? COMMA)%N; simpl.
  - destruct (records st0); simpl; [by rewrite (assoc_L (++))|done].
  - destruct (records st0) as [|r rs]; simpl.
    + by rewrite (assoc_L (++)).
    + by rewrite <- (assoc_L (++)).
Qed.

(** A pass on the whole input does what the pass on the rest does. *)
Lemma shift_body recs cur st0 :
  body (pre ++ t) (resume recs cur (length pre) st0)
  = match body t st0 with
    | Ok o => Ok (resume recs cur (length pre) <$> o)
    | TypeError => TypeError
    | OutOfFuel => OutOfFuel
    end.
Proof.
  destruct (body_inv t st0) as [[-> Hno]|(e & d & He & Hd & ->)]; simpl.
  - apply body_break. intros e He.
    pose proof (end_at_bounds _ _ _ He) as [? _]. simpl in *.
    replace e with (length pre + (e - length pre)) in He by lia.
    apply shift_end_at in He. by apply (Hno (e - length pre)).
  - pose proof (end_at_bounds _ _ _ He) as [? ?].
    rewrite (body_field (pre ++ t) _ (length pre + e) d);
      [|by apply shift_end_at|by rewrite shift_lookup].
    simpl. rewrite shift_field_value, shift_marker_end by lia.
    by rewrite resume_push.
Qed.

Lemma shift_steps recs cur a b :
  steps t a b →
  steps (pre ++ t) (resume recs cur (length pre) a)
    (resume recs cur (length pre) b).
Proof.
  induction 1 as [|st st' st'' Hb _ IH]; [constructor|].
  eapply steps_step; [|exact IH]. by rewrite shift_body, Hb.
Qed.

Lemma shift_finish recs cur st0 :
  startIndex st0 ≤ length t →
  finish (pre ++ t) (resume recs cur (length pre) st0)
  = recs ++ merge cur (finish t st0).
Proof.
  intros Hle. rewrite !finish_alt.
  assert (Htr : trailing (pre ++ t) (resume recs cur (length pre) st0)
                = trailing t st0).
  { unfold trailing. simpl.
    rewrite !substring_from_le by (rewrite ?length_app; lia).
    by rewrite drop_app_add. }
  rewrite Htr. unfold resume. simpl.
  destruct (records st0) as [|r rs]; simpl.
  - rewrite <- (assoc_L (++)).
    generalize (currentRecord st0 ++ trailing t st0). intros x.
    destruct (decide (x = [])) as [->|Hx]; simpl.
    + rewrite app_nil_r. destruct (decide (cur = [])); by rewrite ?app_nil_r.
    + rewrite decide_False; [done|]. by intros [_ ?]%app_eq_nil.
  - generalize (currentRecord st0 ++ trailing t st0). intros x.
    destruct (decide (x = [])); simpl; [done|].
    by rewrite <- !(assoc_L (++)).
Qed.

End Shift.

(** The parser keeps nothing but its cursor, its records and its
    current record: from any state that the loop goes through, the rest
    of the result is the result of parsing the rest of the input, its
    first record going on the current record. *)
Theorem parseCSV_resume s st rest :
  reachable s st → parseCSV (drop (startIndex st) s) = Ok rest →
  parseCSV s = Ok (records st ++ merge (currentRecord st) rest).
Proof.
  intros Hst Hrest. pose proof (reachable_in_bounds s st Hst) as Hle.
  set (pre := take (startIndex st) s). set (t := drop (startIndex st) s) in *.
  assert (Hs : s = pre ++ t) by (subst pre t; by rewrite take_drop).
  assert (Hn : length pre = startIndex st)
    by (subst pre; rewrite length_take; lia).
  destruct (parseCSV_run t) as (stf0 & Hr0 & Hnone0 & Hp0).
  rewrite Hp0 in Hrest. injection Hrest as <-.
  assert (Hinit : resume (records st) (currentRecord st) (length pre) init = st).
  { unfold resume. simpl. rewrite app_nil_r, Hn, Nat.add_0_r. by destruct st. }
  pose proof (shift_steps pre t (records st) (currentRecord st) _ _ Hr0) as Hsteps.
  rewrite Hinit, <- Hs in Hsteps.
  pose proof (shift_body pre t (records st) (currentRecord st) stf0) as Hb.
  rewrite Hnone0, <- Hs in Hb. simpl in Hb.
  rewrite (parseCSV_steps s _ (steps_trans _ _ _ _ Hst Hsteps) Hb).
  rewrite Hs at 1. rewrite shift_finish; [done|].
  by apply reachable_in_bounds.
Qed.

Lemma parseCSV_resume_witness :
  parseCSV (lit "a,b" ++ [LF] ++ lit "c,d" ++ [LF] ++ lit "e")
  = Ok ([[lit "a"; lit "b"]] ++ merge [lit "c"] [[lit "d"]; [lit "e"]]).
Proof.
  apply (parseCSV_resume (lit "a,b" ++ [LF] ++ lit "c,d" ++ [LF] ++ lit "e")
           {| startIndex := 6; records := [[lit "a"; lit "b"]];
              currentRecord := [lit "c"] |}).
  - eapply steps_step; [reflexivity|].
    eapply steps_step; [reflexivity|].
    eapply steps_step; [reflexivity|]. apply steps_refl.
  - vm_compute. reflexivity.
Defined.

(** A carriage return and a line feed in a row end two records: the one
    that the field before them closes, and a record of one empty field,
    which the line feed yields on its own. *)
Theorem parseCSV_crlf s st e :
  end_at s (startIndex st) e → s !! e = Some CR → s !! S e = Some LF →
  ∃ st' st'',
    body s st = Ok (Some st') ∧ body s st' = Ok (Some st'') ∧
    records st'' =
      records st ++ [currentRecord st ++ [field_value s (startIndex st) e]; [[]]] ∧
    currentRecord st'' = [].
Proof.
  intros He Hcr Hlf.
  assert (Hm : marker_end s e = S e).
  { unfold marker_end. rewrite (drop_S _ _ _ Hlf). simpl. lia. }
  pose proof (body_field _ _ _ _ He Hcr) as Hb. rewrite Hm in Hb.
  set (st' := push st (field_value s (startIndex st) e) CR (S e)) in *.
  assert (Hi : startIndex st' = S e) by apply push_startIndex.
  assert (He' : end_at s (startIndex st') (S e)).
  { rewrite Hi. apply end_at_unquoted; [by rewrite Hlf|].
    split_and!; [done|by exists LF|lia]. }
  pose proof (body_field _ _ _ _ He' Hlf) as Hb'.
  pose proof (lookup_lt_Some _ _ _ Hlf).
  rewrite Hi, field_value_unquoted, substring_empty in Hb'
    by (rewrite ?Hlf; done || lia).
  eexists _, _. split_and!; [exact Hb|exact Hb'|..].
  - simpl. by rewrite <- (assoc_L (++)).
  - done.
Qed.

Lemma parseCSV_crlf_witness :
  ∃ st' st'',
    body (lit "a" ++ [CR; LF] ++ lit "b") init = Ok (Some st') ∧
    body (lit "a" ++ [CR; LF] ++ lit "b") st' = Ok (Some st'') ∧
    records st'' =
      [] ++ [[] ++ [field_value (lit "a" ++ [CR; LF] ++ lit "b") 0 1]; [[]]] ∧
    currentRecord st'' = [].
Proof.
  apply (parseCSV_crlf (lit "a" ++ [CR; LF] ++ lit "b") init 1).
  - apply end_at_unquoted; [by vm_compute|].
    split_and!; [simpl; lia|by exists CR|].
    intros j _ Hj (d & Hd & Hdel). destruct j as [|j]; [|simpl in Hj; lia].
    vm_compute in Hd. injection Hd as <-. vm_compute in Hdel. discriminate.
  - reflexivity.
  - reflexivity.
Defined.

(** ** Further properties of [getPropertyPath] *)

Section AnyHostFacts.

Context {V : Type}.
Variable to_boolean : V → bool.

(** On any host, [getPropertyPath] reads properties of truthy values
    only, so never a property of [undefined] or [null]: when it raises,
    the read of a key of the path on a truthy value has raised; and its
    outcome is the same for any two ways of reading properties that
    agree on the truthy values. *)
Theorem getPropertyPath_reads_truthy_only :
  (∀ read obj path,
     getPropertyPath_with to_boolean read obj path = None →
     ∃ v k, to_boolean v = true ∧ k ∈ path ∧ read v k = None) ∧
  (∀ read read' obj path,
     (∀ v k, to_boolean v = true → read v k = read' v k) →
     getPropertyPath_with to_boolean read obj path
     = getPropertyPath_with to_boolean read' obj path).
Proof.
  split.
  - intros read obj path. revert obj.
    induction path as [|k path IH]; intros obj; [done|]. simpl.
    destruct (to_boolean obj) eqn:Ht; simpl; [|done].
    destruct (read obj k) as [v|] eqn:Hr; simpl.
    + intros (v' & k' & ? & ? & ?)%IH. exists v', k'.
      split_and!; [done| |done]. by apply list_elem_of_further.
    + intros _. exists obj, k. split_and!; [done| |done].
      apply list_elem_of_here.
  - intros read read' obj path Hagree. revert obj.
    induction path as [|k path IH]; intros obj; [done|]. simpl.
    destruct (to_boolean obj) eqn:Ht; simpl; [|done].
    rewrite <- (Hagree obj k Ht).
    destruct (read obj k) as [v|]; simpl; [apply IH|done].
Qed.

End AnyHostFacts.

(** The function of the claims is the function over any host, taken at
    the values of documents and at the reading of own properties. *)
Lemma getPropertyPath_with_get obj path :
  getPropertyPath_with truthy
    (λ v k, match get v k with Ok w => Some w | _ => None end) obj path
  = match getPropertyPath_array obj path with Ok w => Some w | _ => None end.
Proof.
  revert obj. induction path as [|k path IH]; intros obj; [done|]. simpl.
  destruct (truthy obj); simpl; [|done].
  destruct (get obj k) as [v| |]; simpl; [apply IH|done..].
Qed.

Lemma getPropertyPath_array_falsy obj path :
  truthy obj = false → getPropertyPath_array obj path = Ok obj.
Proof. intros Ht. destruct path; simpl; [done|]. by rewrite Ht. Qed.

(** Looking up a path made of two paths is looking up the second in
    what the first leads to. *)
Theorem getPropertyPath_app obj p q :
  getPropertyPath obj (PArray (p ++ q))
  = getPropertyPath obj (PArray p) ≫= λ v, getPropertyPath v (PArray q).
Proof.
  unfold getPropertyPath. revert obj.
  induction p as [|k p IH]; intros obj; [done|].
  change ((k :: p) ++ q) with (k :: (p ++ q)). simpl.
  destruct (truthy obj) eqn:Ht; simpl.
  - destruct (get obj k) as [v| |]; simpl; [apply IH|done..].
  - by rewrite getPropertyPath_array_falsy.
Qed.

Lemma get_get_own obj k v : get_own obj k = Some v → get obj k = Ok v.
Proof.
  destruct obj as [| | | |s|l|m]; simpl; try done.
  - case_decide; [congruence|]. by intros ->.
  - case_decide; [congruence|]. by intros ->.
  - by intros ->.
Qed.

(** When the names of the path lead from [obj] to [w] through own
    properties of truthy values, [getPropertyPath] returns [w]. *)
Theorem getPropertyPath_nested_own obj path w :
  nested_own obj path w → getPropertyPath obj (PArray path) = Ok w.
Proof.
  unfold getPropertyPath.
  induction 1 as [obj|obj k v path w Ht Hk _ IH]; [done|]. simpl.
  rewrite Ht. simpl. by rewrite (get_get_own _ _ _ Hk).
Qed.

Lemma getPropertyPath_nested_own_witness :
  getPropertyPath
    (VObj {[ lit "a" := VArr [VNull; VObj {[ lit "b" := VStr (lit "foo") ]}] ]})
    (PArray [lit "a"; lit "1"; lit "b"; lit "length"])
  = Ok (VNum (num_of_nat 3)).
Proof.
  apply getPropertyPath_nested_own.
  eapply nested_own_cons; [done|by vm_compute|].
  eapply nested_own_cons; [done|by vm_compute|].
  eapply nested_own_cons; [done|by vm_compute|].
  eapply nested_own_cons; [done|by vm_compute|].
  apply nested_own_nil.
Defined.

(** ** The properties of [attachmentsBelowPath] *)

(** The example of the documentation. *)
Example attachmentsBelowPath_doc :
  attachmentsBelowPath
    (VObj {[ lit "_attachments" :=
               VObj (<[ lit "foo/bar.ext" := VStr (lit "one") ]>
                     (<[ lit "foo/baz.ext" := VStr (lit "two") ]>
                      {[ lit "asdf.ext" := VStr (lit "blah") ]})) ]})
    (PString (lit "foo"))
  = Ok {| own := <[ lit "bar.ext" := VStr (lit "one") ]>
                   {[ lit "baz.ext" := VStr (lit "two") ]};
          proto := None |}.
Proof. by vm_compute. Qed.

(** An attachment named [__proto__] below the path is no property of
    the result: an object becomes its prototype, a string is dropped. *)
Example attachmentsBelowPath_proto :
  attachmentsBelowPath
    (VObj {[ lit "_attachments" :=
               VObj {[ lit "p/__proto__" := VObj {[ lit "q/x" := VNull ]} ]} ]})
    (PString (lit "p"))
  = Ok {| own := ∅; proto := Some (VObj {[ lit "q/x" := VNull ]}) |} ∧
  attachmentsBelowPath
    (VObj {[ lit "_attachments" :=
               VObj {[ lit "p/__proto__" := VStr (lit "one") ]} ]})
    (PString (lit "p"))
  = Ok empty_object.
Proof. split; by vm_compute. Qed.

(** The test of line 149 holds of the names that start with the path
    and a slash, and line 150 keeps what follows. *)
Lemma below_test path k :
  substr k 0 (length path + 1) = path ++ [SLASH] ↔
  ∃ rel, k = path ++ SLASH :: rel.
Proof.
  unfold substr. rewrite drop_0. split.
  - intros Ht. exists (drop (length path + 1) k).
    rewrite (cons_middle SLASH), (assoc_L (++)), <- Ht. by rewrite take_drop.
  - intros [rel ->]. rewrite (cons_middle SLASH), (assoc_L (++)).
    apply take_app_length'. rewrite length_app. simpl. lia.
Qed.

Lemma below_rest path rel :
  substr_from (path ++ SLASH :: rel) (length path + 1) = rel.
Proof.
  unfold substr_from. rewrite (cons_middle SLASH), (assoc_L (++)).
  apply drop_app_length'. rewrite length_app. simpl. lia.
Qed.

Lemma object_eq (o o' : object) : own o = own o' → proto o = proto o' → o = o'.
Proof. destruct o, o'. simpl. by intros -> ->. Qed.

Lemma slash_not_in_PROTO : SLASH ∉ PROTO.
Proof. apply (bool_decide_unpack _). by vm_compute. Qed.

Lemma below_step_unfold path acc k v :
  below_step path acc (k, v) =
    if decide (substr k 0 (length path + 1) = path ++ [SLASH])
    then assign acc (substr_from k (length path + 1)) v
    else acc.
Proof. done. Qed.

(** The loop over entries of distinct names, from an object on which the
    setter of [__proto__] is reached, or over entries none of which is
    named [__proto__] below the path: what the object has after it. *)
Lemma below_fold path es : NoDup es.*1 → ∀ acc,
  proto_setter_reached acc = true ∨ (path ++ SLASH :: PROTO) ∉ es.*1 →
  (∀ rel, rel ≠ PROTO →
     own (foldl (below_step path) acc es) !! rel =
       match entry_below path es rel with
       | Some v => Some v
       | None => own acc !! rel
       end) ∧
  own (foldl (below_step path) acc es) !! PROTO = own acc !! PROTO ∧
  proto (foldl (below_step path) acc es) =
    match entry_below path es PROTO with
    | Some v => if is_object_or_null v then Some v else proto acc
    | None => proto acc
    end.
Proof.
  unfold entry_below.
  induction es as [|[k v] es IH]; intros Hnd acc Hacc; [done|].
  apply NoDup_cons in Hnd as [Hk Hnd]. simpl in Hk.
  change (foldl (below_step path) acc ((k, v) :: es))
    with (foldl (below_step path) (below_step path acc (k, v)) es).
  rewrite list_to_map_cons.
  assert (Hnone : (list_to_map es : gmap jsstring value) !! k = None)
    by by apply not_elem_of_list_to_map_1.
  rewrite below_step_unfold.
  destruct (decide _)
    as [[rel0 ->]%below_test|Hno%(not_iff_compat (below_test _ _))].
  - rewrite below_rest. unfold assign.
    destruct (decide (rel0 = PROTO)) as [->|Hne].
    + (* the entry named __proto__ below the path *)
      rewrite bool_decide_eq_true_2 by done.
      destruct Hacc as [Hacc|Hacc]; [|destruct Hacc; apply list_elem_of_here].
      rewrite Hacc. simpl.
      assert (Hown : own acc !! PROTO = None).
      { unfold proto_setter_reached in Hacc. by destruct (own acc !! PROTO). }
      destruct (IH Hnd (if is_object_or_null v
                        then {| own := own acc; proto := Some v |} else acc))
        as (IH1 & IH2 & IH3); [by right|].
      rewrite Hnone in IH3. split_and!.
      * intros rel Hrel. rewrite IH1 by done.
        rewrite lookup_insert_ne by (intros ?; simplify_list_eq).
        by destruct (is_object_or_null v).
      * rewrite IH2. by destruct (is_object_or_null v).
      * rewrite IH3, lookup_insert_eq. by destruct (is_object_or_null v).
    + rewrite bool_decide_eq_false_2 by done. simpl.
      destruct (IH Hnd {| own := <[rel0 := v]> (own acc); proto := proto acc |})
        as (IH1 & IH2 & IH3).
      { destruct Hacc as [Hacc|Hacc]; [left|right].
        - unfold proto_setter_reached in *. simpl.
          by rewrite lookup_insert_ne.
        - intros ?. apply Hacc. by apply list_elem_of_further. }
      simpl in *. split_and!.
      * intros rel Hrel. rewrite IH1 by done.
        destruct (decide (rel0 = rel)) as [->|Hne'].
        -- by rewrite Hnone, !lookup_insert_eq.
        -- rewrite !lookup_insert_ne by (done || intros ?; simplify_list_eq).
           done.
      * rewrite IH2. by rewrite lookup_insert_ne.
      * rewrite IH3.
        by rewrite lookup_insert_ne by (intros ?; simplify_list_eq).
  - destruct (IH Hnd acc) as (IH1 & IH2 & IH3).
    { destruct Hacc as [Hacc|Hacc]; [by left|right].
      intros ?. apply Hacc. by apply list_elem_of_further. }
    split_and!.
    + intros rel Hrel. rewrite IH1 by done.
      rewrite lookup_insert_ne; [done|]. intros ->. apply Hno. eauto.
    + done.
    + rewrite IH3. rewrite lookup_insert_ne; [done|]. intros ->. apply Hno. eauto.
Qed.

Lemma below_entries_spec path es : NoDup es.*1 →
  (∀ rel, rel ≠ PROTO →
     own (below_entries path es) !! rel = entry_below path es rel) ∧
  own (below_entries path es) !! PROTO = None ∧
  proto (below_entries path es) =
    (v ← entry_below path es PROTO; if is_object_or_null v then Some v else None).
Proof.
  intros Hnd. unfold below_entries.
  destruct (below_fold path es Hnd empty_object) as (H1 & H2 & H3); [by left|].
  split_and!.
  - intros rel Hrel. rewrite (H1 rel Hrel).
    destruct (entry_below path es rel); [reflexivity|].
    apply lookup_empty.
  - by rewrite H2.
  - rewrite H3. by destruct (entry_below _ _ _).
Qed.

Lemma entry_below_map (path : jsstring) (m : gmap jsstring value)
    (rel : jsstring) :
  entry_below path (map_to_list m) rel = m !! (path ++ SLASH :: rel).
Proof. unfold entry_below. by rewrite list_to_map_to_list. Qed.

Lemma below_map_spec (path : jsstring) (m : gmap jsstring value) :
  (∀ rel, rel ≠ PROTO →
     own (below_entries path (map_to_list m)) !! rel
       = m !! (path ++ SLASH :: rel)) ∧
  own (below_entries path (map_to_list m)) !! PROTO = None ∧
  proto (below_entries path (map_to_list m)) =
    (v ← m !! (path ++ SLASH :: PROTO);
     if is_object_or_null v then Some v else None).
Proof.
  destruct (below_entries_spec path (map_to_list m)) as (H1 & H2 & H3);
    [apply NoDup_fst_map_to_list|].
  split_and!; [|done|].
  - intros rel Hrel. by rewrite H1, entry_below_map.
  - by rewrite H3, entry_below_map.
Qed.

Lemma attachmentsBelowPath_object d m path ps :
  d !! lit "_attachments" = Some (VObj m) → path_string path = Some ps →
  attachmentsBelowPath (VObj d) path = Ok (below_entries ps (map_to_list m)).
Proof. intros Hd Hp. unfold attachmentsBelowPath. simpl. by rewrite Hd, Hp. Qed.

(** The attachments below a path that is a string or an array of names,
    in a document whose attachments are an object. Under a name other
    than [__proto__] the result has the attachment whose name is the
    path, a slash and that name, and it has no other own property. The
    attachment named [__proto__] below the path is not a property of the
    result: it is made the prototype of the result when it is an
    object, an array or [null], and is dropped otherwise. *)
Theorem attachmentsBelowPath_lookup d m path ps :
  d !! lit "_attachments" = Some (VObj m) → path_string path = Some ps →
  ∃ r, attachmentsBelowPath (VObj d) path = Ok r ∧
    (∀ rel, rel ≠ PROTO → own r !! rel = m !! (ps ++ SLASH :: rel)) ∧
    own r !! PROTO = None ∧
    proto r = (v ← m !! (ps ++ SLASH :: PROTO);
               if is_object_or_null v then Some v else None).
Proof.
  intros Hd Hp. rewrite (attachmentsBelowPath_object d m path ps Hd Hp).
  eexists. split; [done|]. apply below_map_spec.
Qed.

Lemma attachmentsBelowPath_lookup_witness :
  ∃ r, attachmentsBelowPath
         (VObj {[ lit "_attachments" :=
                    VObj (<[ lit "a/b/c.txt" := VStr (lit "one") ]>
                          {[ lit "a/b/__proto__" := VArr [] ]}) ]})
         (PArray [lit "a"; lit "b"]) = Ok r ∧
    (∀ rel, rel ≠ PROTO →
       own r !! rel =
         (<[ lit "a/b/c.txt" := VStr (lit "one") ]>
          {[ lit "a/b/__proto__" := VArr [] ]} : gmap jsstring value)
           !! (lit "a/b" ++ SLASH :: rel)) ∧
    own r !! PROTO = None ∧
    proto r =
      (v ← (<[ lit "a/b/c.txt" := VStr (lit "one") ]>
            {[ lit "a/b/__proto__" := VArr [] ]} : gmap jsstring value)
             !! (lit "a/b" ++ SLASH :: PROTO);
       if is_object_or_null v then Some v else None).
Proof.
  apply attachmentsBelowPath_lookup; by vm_compute.
Defined.

(** The order in which the attachments are gone through does not
    matter. *)
Theorem attachmentsBelowPath_any_order path es es' :
  NoDup es.*1 → es ≡ₚ es' → below_entries path es = below_entries path es'.
Proof.
  intros Hnd Hp. assert (Hnd' : NoDup es'.*1) by (by rewrite <- Hp).
  destruct (below_entries_spec path es Hnd) as (H1 & H2 & H3).
  destruct (below_entries_spec path es' Hnd') as (H1' & H2' & H3').
  assert (He : ∀ rel, entry_below path es rel = entry_below path es' rel).
  { intros rel. unfold entry_below.
    by rewrite (list_to_map_proper es es' Hnd Hp). }
  apply object_eq.
  - apply map_eq. intros rel. destruct (decide (rel = PROTO)) as [->|Hne].
    + by rewrite H2, H2'.
    + by rewrite H1, H1', He.
  - by rewrite H3, H3', He.
Qed.

Lemma attachmentsBelowPath_any_order_witness :
  below_entries (lit "a")
    [(lit "a/x", VNull); (lit "b/y", VNull); (lit "a/z", VBool true)]
  = below_entries (lit "a")
    [(lit "a/z", VBool true); (lit "a/x", VNull); (lit "b/y", VNull)].
Proof.
  apply attachmentsBelowPath_any_order.
  - apply (bool_decide_unpack _). vm_compute. exact I.
  - symmetry.
    apply (Permutation_cons_append
             [(lit "a/x", VNull); (lit "b/y", VNull)] (lit "a/z", VBool true)).
Defined.

Lemma get_truthy obj k : truthy obj = true → ∃ v, get obj k = Ok v.
Proof.
  intros Ht. destruct obj; try done; simpl; repeat case_decide; eauto.
Qed.

(** When [attachmentsBelowPath] raises: exactly when the path is
    [undefined] or [null] and the loop has a name to go through, the
    document and its [_attachments] being truthy; it is [path.length]
    that raises. It returns an object in every other case: no property
    of an [undefined] or [null] document or [_attachments] is read. *)
Theorem attachmentsBelowPath_raises doc path :
  (attachmentsBelowPath doc path = TypeError ↔
     (path = PUndefined ∨ path = PNull) ∧ truthy doc = true ∧
     ∃ att, get doc (lit "_attachments") = Ok att ∧ truthy att = true ∧
            own_entries att ≠ []) ∧
  (attachmentsBelowPath doc path ≠ TypeError →
   ∃ r, attachmentsBelowPath doc path = Ok r).
Proof.
  unfold attachmentsBelowPath.
  destruct (truthy doc) eqn:Ht; simpl.
  2:{ split; [|eauto]. split; [done|]. by intros (_ & ? & _). }
  destruct (get_truthy doc (lit "_attachments") Ht) as [att ->]. simpl.
  destruct (truthy att) eqn:Ha; simpl.
  2:{ split; [|eauto]. split; [done|].
      intros (_ & _ & att' & [= <-] & ? & _). congruence. }
  destruct path as [ks|k| |]; simpl.
  - split; [|eauto]. split; [done|]. by intros ([|] & _).
  - split; [|eauto]. split; [done|]. by intros ([|] & _).
  - destruct (own_entries att) eqn:He; (split; [|by eauto]).
    + split; [done|]. intros (_ & _ & att' & [= <-] & _ & ?). congruence.
    + split; [|done]. intros _. split_and!; [by left|done|].
      exists att. split_and!; [done..|]. by rewrite He.
  - destruct (own_entries att) eqn:He; (split; [|by eauto]).
    + split; [done|]. intros (_ & _ & att' & [= <-] & _ & ?). congruence.
    + split; [|done]. intros _. split_and!; [by right|done|].
      exists att. split_and!; [done..|]. by rewrite He.
Qed.

Lemma attachmentsBelowPath_raises_witness :
  attachmentsBelowPath
    (VObj {[ lit "_attachments" := VObj {[ lit "a/b" := VNull ]} ]}) PUndefined
  = TypeError.
Proof.
  apply (proj1 (attachmentsBelowPath_raises _ _)).
  split_and!; [by left|done|].
  exists (VObj {[ lit "a/b" := VNull ]}). split_and!; [by vm_compute|done|].
  by vm_compute.
Defined.

Lemma uint_codes_no_slash u : SLASH ∉ uint_codes u.
Proof.
  induction u; simpl; rewrite ?not_elem_of_cons;
    [apply not_elem_of_nil|split; [done|assumption]..].
Qed.

Lemma below_step_no_slash path acc k v :
  SLASH ∉ k → below_step path acc (k, v) = acc.
Proof.
  intros Hk. unfold below_step. rewrite decide_False; [done|].
  intros [rel ->]%below_test. apply Hk.
  rewrite elem_of_app, elem_of_cons. right; by left.
Qed.

Lemma below_entries_no_slash path es :
  Forall (λ kv, SLASH ∉ kv.1) es → below_entries path es = empty_object.
Proof.
  unfold below_entries. intros Hes. generalize empty_object.
  induction Hes as [|[k v] es Hk _ IH]; intros acc; [done|].
  simpl in Hk.
  change (foldl (below_step path) acc ((k, v) :: es))
    with (foldl (below_step path) (below_step path acc (k, v)) es).
  by rewrite (below_step_no_slash _ _ _ _ Hk).
Qed.

Lemma index_entries_no_slash {A} (f : A → value) (l : list A) :
  Forall (λ kv, SLASH ∉ kv.1) (imap (λ i x, (index_key i, f x)) l).
Proof.
  apply Forall_forall. intros [k v] (i & x & [= -> ->] & _)%elem_of_lookup_imap.
  apply uint_codes_no_slash.
Qed.

(** Only an object of attachments yields anything. Whatever the path,
    the result is the empty object when the document is falsy and when
    its [_attachments] property is missing or falsy. When the path is a
    string or an array of names, it is the empty object also when
    [_attachments] is an array, a string or any other value that is not
    an object. *)
Theorem attachmentsBelowPath_nothing doc path :
  truthy doc = false ∨
  (∃ att, get doc (lit "_attachments") = Ok att ∧
     (truthy att = false ∨ (path_string path ≠ None ∧ ∀ m, att ≠ VObj m))) →
  attachmentsBelowPath doc path = Ok empty_object.
Proof.
  unfold attachmentsBelowPath. intros [->|(att & -> & Hatt)]; [done|].
  destruct (truthy doc); simpl; [|done].
  destruct (truthy att) eqn:Ht; simpl; [|done].
  destruct Hatt as [|[Hp Hatt]]; [done|].
  destruct (path_string path) as [ps|]; [|done]. f_equal.
  destruct att as [| | | |s|l|m]; try done.
  - apply below_entries_no_slash.
    apply (index_entries_no_slash (λ c, VStr [c])).
  - apply below_entries_no_slash. apply (index_entries_no_slash id).
  - by destruct (Hatt m).
Qed.

Lemma attachmentsBelowPath_nothing_witness :
  attachmentsBelowPath
    (VObj {[ lit "_attachments" := VArr [VStr (lit "a/b")] ]})
    (PString (lit "a")) = Ok empty_object.
Proof.
  apply attachmentsBelowPath_nothing. right.
  exists (VArr [VStr (lit "a/b")]). split; [by vm_compute|]. right. done.
Defined.

(** Going below a path in what lies below another path is going below
    the two paths put together, when what lies below the first path is
    an object of a document, its prototype not changed: that is, when
    no object, array or [null] is the attachment named [__proto__] below
    the first path. *)
Theorem attachmentsBelowPath_compose d m p q r1 v1 :
  d !! lit "_attachments" = Some (VObj m) →
  attachmentsBelowPath (VObj d) (PString p) = Ok r1 →
  as_value r1 = Some v1 →
  attachmentsBelowPath (VObj {[ lit "_attachments" := v1 ]}) (PString q)
  = attachmentsBelowPath (VObj d) (PArray [p; q]).
Proof.
  intros Hd Hr1 Hv1.
  rewrite (attachmentsBelowPath_object d m (PString p) p Hd eq_refl) in Hr1.
  injection Hr1 as <-.
  unfold as_value in Hv1. destruct (proto _); [done|]. injection Hv1 as <-.
  rewrite (attachmentsBelowPath_object d m (PArray [p; q]) _ Hd eq_refl).
  rewrite (attachmentsBelowPath_object _ _ (PString q) q
             (lookup_singleton_eq _ _) eq_refl).
  destruct (below_map_spec p m) as (H1 & _ & _).
  destruct (below_map_spec q (own (below_entries p (map_to_list m))))
    as (L1 & L2 & L3).
  destruct (below_map_spec (join_sep [SLASH] [p; q]) m) as (R1 & R2 & R3).
  assert (Hin : ∀ rel,
            own (below_entries p (map_to_list m)) !! (q ++ SLASH :: rel)
            = m !! (join_sep [SLASH] [p; q] ++ SLASH :: rel)).
  { intros rel. rewrite H1.
    - simpl. by rewrite <- !(assoc_L (++)).
    - intros Heq. apply slash_not_in_PROTO. rewrite <- Heq.
      rewrite elem_of_app, elem_of_cons. right; by left. }
  f_equal. apply object_eq.
  - apply map_eq. intros rel. destruct (decide (rel = PROTO)) as [->|Hne].
    + by rewrite L2, R2.
    + by rewrite L1, R1, Hin.
  - by rewrite L3, R3, Hin.
Qed.

Lemma attachmentsBelowPath_compose_witness :
  attachmentsBelowPath
    (VObj {[ lit "_attachments" :=
               VObj {[ lit "b/c.txt" := VStr (lit "one") ]} ]})
    (PString (lit "b"))
  = attachmentsBelowPath
    (VObj {[ lit "_attachments" :=
               VObj {[ lit "a/b/c.txt" := VStr (lit "one") ]} ]})
    (PArray [lit "a"; lit "b"]).
Proof.
  apply (attachmentsBelowPath_compose
           {[ lit "_attachments" := VObj {[ lit "a/b/c.txt" := VStr (lit "one") ]} ]}
           {[ lit "a/b/c.txt" := VStr (lit "one") ]} (lit "a") (lit "b")
           {| own := {[ lit "b/c.txt" := VStr (lit "one") ]}; proto := None |}).
  - by vm_compute.
  - by vm_compute.
  - done.
Defined.

(** ** A further property of [getErrors] *)

(** Collecting the errors of a function that itself returns what
    [getErrors] collected changes nothing: the array returned by the
    inner call, empty or not, is taken over as it is. *)
Theorem getErrors_nested fn args args' :
  getErrors (λ _, arr ← getErrors fn args; Return (VArr arr)) args'
  = getErrors fn args.
Proof.
  unfold getErrors. destruct (fn args) as [v|e]; simpl; [|done].
  unfold js_or. by destruct (truthy v), v.
Qed.
